(** * pynt: a shallow embedding of [pynt/base.py] and [pynt/sums.py]

    Python integers are unbounded, so they are modelled by [Z]; Python's
    floor division [//] and modulus [%] agree with [Z.div] and [Z.modulo]
    for every sign of the operands.  Exceptions are modelled by a small
    result monad; [while] loops are run on fuel, and running out of fuel is
    a result of its own ([OutOfFuel]) that the theorems show unreachable.
    [compute_partial_sums] adds up ints, floats or complex numbers: it is
    modelled over any type of numbers with its [+] (class [Numeric]). *)

From Stdlib Require Import ZArith List Lia Bool Znumtheory Sorting Permutation.
From Stdlib Require Import PrimFloat.
Import ListNotations.

Local Open Scope Z_scope.

(** ** Results of a Python call *)

Inductive exn : Type :=
| ValueError
| IndexError
| ZeroDivisionError.

Inductive result (A : Type) : Type :=
| Ok (a : A)
| Raise (e : exn)
| OutOfFuel.

Arguments Ok {A} a.
Arguments Raise {A} e.
Arguments OutOfFuel {A}.

Definition bind {A B : Type} (m : result A) (k : A -> result B) : result B :=
  match m with
  | Ok a => k a
  | Raise e => Raise e
  | OutOfFuel => OutOfFuel
  end.

Notation "x <- m ;; k" := (bind m (fun x => k))
  (at level 61, m at next level, right associativity).

(** [a % b] and [a // b]: a zero divisor raises [ZeroDivisionError]. *)
Definition pymod (a b : Z) : result Z :=
  if b =? 0 then Raise ZeroDivisionError else Ok (a mod b).

Definition pydiv (a b : Z) : result Z :=
  if b =? 0 then Raise ZeroDivisionError else Ok (a / b).

(** [l[i]] on a Python list: a negative index counts from the end, an index
    out of range raises [IndexError]. *)
Definition getitem {A : Type} (l : list A) (i : Z) : result A :=
  let len := Z.of_nat (length l) in
  let j := if i <? 0 then i + len else i in
  if (j <? 0) || (len <=? j) then Raise IndexError
  else match nth_error l (Z.to_nat j) with
       | Some a => Ok a
       | None => Raise IndexError
       end.

(** [range(lo, hi)] and [range(n)]. *)
Definition range2 (lo hi : Z) : list Z :=
  map (fun k => lo + Z.of_nat k) (seq 0 (Z.to_nat (hi - lo))).

Definition range (n : Z) : list Z := range2 0 n.

(** ** [gcd] (base.py, lines 22-45) *)

(** The loop [while num2 != 0: num1, num2 = num2, num1 % num2]. *)
Fixpoint gcd_loop (fuel : nat) (num1 num2 : Z) : result Z :=
  match fuel with
  | O => OutOfFuel
  | S fuel' =>
      if negb (num2 =? 0) then gcd_loop fuel' num2 (num1 mod num2)
      else Ok num1
  end.

Definition gcd (num1 num2 : Z) : result Z :=
  if num1 =? 0 then Ok num2
  else if num2 =? 0 then Ok num1
  else
    let num1 := if num1 <? 0 then - num1 else num1 in
    let num2 := if num2 <? 0 then - num2 else num2 in
    gcd_loop (S (Z.to_nat num2)) num1 num2.

(** ** [smallest_prime_divisor] (base.py, lines 48-89) *)

(** [for prime in [2, 3, 5]: if num % prime == 0: return prime]. *)
Fixpoint first_dividing (num : Z) (small : list Z) : option Z :=
  match small with
  | [] => None
  | prime :: small' =>
      if num mod prime =? 0 then Some prime else first_dividing num small'
  end.

Definition diffs : list Z := [6; 4; 2; 4; 2; 4; 6; 2].

(** [while cand <= bound and cand*cand <= num: ...]. *)
Fixpoint spd_loop (fuel : nat) (num bound cand i : Z) : result Z :=
  match fuel with
  | O => OutOfFuel
  | S fuel' =>
      if (cand <=? bound) && (cand * cand <=? num) then
        r <- pymod num cand ;;
        if r =? 0 then Ok cand
        else
          d <- getitem diffs i ;;
          spd_loop fuel' num bound (cand + d) ((i + 1) mod 8)
      else Ok num
  end.

(** [bound = None] is the omitted argument. *)
Definition smallest_prime_divisor (num : Z) (bound : option Z) : result Z :=
  if num <? 1 then Raise ValueError
  else if num =? 1 then Ok num
  else
    match first_dividing num [2; 3; 5] with
    | Some prime => Ok prime
    | None =>
        let bound := match bound with None => num | Some b => b end in
        spd_loop (Z.to_nat num) num bound 7 1
    end.

(** ** [primes] (base.py, lines 94-108) *)

(** [numpy.ones(n, dtype=bool)]: a negative length raises [ValueError]. *)
Definition ones (n : Z) : result (list bool) :=
  if n <? 0 then Raise ValueError else Ok (repeat true (Z.to_nat n)).

(** The positions of an array, paired with its entries. *)
Definition indexed (sieve : list bool) : list (Z * bool) :=
  combine (range (Z.of_nat (length sieve))) sieve.

(** [sieve[start::step] = False], for [0 <= start] and [0 < step]: the
    entries at [start], [start + step], ... below the length are cleared. *)
Definition slice_clear (start step : Z) (sieve : list bool) : list bool :=
  map (fun jb =>
         if (start <=? fst jb) && ((fst jb - start) mod step =? 0)
         then false else snd jb)
      (indexed sieve).

(** [numpy.nonzero(sieve)[0]]. *)
Definition nonzero (sieve : list bool) : list Z :=
  map fst (filter snd (indexed sieve)).

(** The body of [for i in range(1, int(limit ** 0.5) // 3 + 1)]. *)
Fixpoint sieve_loop (indices : list Z) (sieve : list bool) : result (list bool) :=
  match indices with
  | [] => Ok sieve
  | i :: indices' =>
      b <- getitem sieve i ;;
      if b : bool then
        let k := Z.lor (3 * i + 1) 1 in
        let sieve := slice_clear (k * k / 3) (2 * k) sieve in
        let sieve := slice_clear (k * (k - 2 * Z.land i 1 + 4) / 3) (2 * k) sieve in
        sieve_loop indices' sieve
      else sieve_loop indices' sieve
  end.

(** [int(limit ** 0.5)] is the floor of the floating-point square root; it
    is the integer square root [Z.sqrt limit] for every [limit] below
    [2^52], which is the range this model covers. *)
Definition primes (limit : Z) : result (list Z) :=
  sieve <- ones (limit / 3 + Z.b2z (limit mod 6 =? 2)) ;;
  sieve <- sieve_loop (range2 1 (Z.sqrt limit / 3 + 1)) sieve ;;
  Ok (2 :: 3 :: map (fun j => Z.lor (3 * j + 1) 1) (tl (nonzero sieve))).

(** ** [factor] (base.py, lines 111-144) *)

(** [while num % prime == 0: exp += 1; num = num // prime]; the result is
    the final [(num, exp)]. *)
Fixpoint divide_out (fuel : nat) (num prime exp : Z) : result (Z * Z) :=
  match fuel with
  | O => OutOfFuel
  | S fuel' =>
      r <- pymod num prime ;;
      if r =? 0 then
        q <- pydiv num prime ;;
        divide_out fuel' q prime (exp + 1)
      else Ok (num, exp)
  end.

(** [while num != 1: ...]. *)
Fixpoint factor_loop (fuel : nat) (num : Z) (factors : list (Z * Z))
  : result (list (Z * Z)) :=
  match fuel with
  | O => OutOfFuel
  | S fuel' =>
      if negb (num =? 1) then
        prime <- smallest_prime_divisor num None ;;
        let exp := 1 in
        num <- pydiv num prime ;;
        ne <- divide_out (Z.to_nat num) num prime exp ;;
        factor_loop fuel' (fst ne) (factors ++ [(prime, snd ne)])
      else Ok factors
  end.

Definition factor (num : Z) : result (list (Z * Z)) :=
  if existsb (Z.eqb num) [-1; 0; 1] then Ok []
  else
    let num := if num <? 0 then - num else num in
    factor_loop (Z.to_nat num) num [].

(** ** [factors] (base.py, lines 147-166) *)

(** [primes_, exps = zip] of the unpacked factorization: [zip] of no
    argument yields nothing, and unpacking nothing into two names raises [ValueError]. *)
Definition unzip2 (factorization : list (Z * Z)) : result (list Z * list Z) :=
  match factorization with
  | [] => Raise ValueError
  | _ :: _ => Ok (map fst factorization, map snd factorization)
  end.

(** [itertools.product] of the unpacked pools: the last pool varies
    fastest. *)
Fixpoint cartesian_product {A : Type} (pools : list (list A)) : list (list A) :=
  match pools with
  | [] => [[]]
  | pool :: pools' =>
      flat_map (fun x => map (cons x) (cartesian_product pools')) pool
  end.

(** [val = 1; for prime, exp in zip(primes_, exp_choice): val *= prime**exp]. *)
Definition choice_value (primes_ exp_choice : list Z) : Z :=
  fold_left (fun val pe => val * fst pe ^ snd pe) (combine primes_ exp_choice) 1.

(** [sorted] on integers, as a stable insertion sort. *)
Fixpoint insert_sorted (x : Z) (l : list Z) : list Z :=
  match l with
  | [] => [x]
  | y :: l' => if x <=? y then x :: l else y :: insert_sorted x l'
  end.

Definition sorted (l : list Z) : list Z := fold_right insert_sorted [] l.

Definition factors (num : Z) : result (list Z) :=
  factorization <- factor num ;;
  pe <- unzip2 factorization ;;
  let exp_choices :=
    cartesian_product (map (fun exp => range (exp + 1)) (snd pe)) in
  Ok (sorted (map (choice_value (fst pe)) exp_choices)).

(** ** [convolution_coeff] and [compute_partial_sums] (sums.py) *)

(** [for factor in factors(val): ret += fun1(factor) * fun2(val // factor)]. *)
Fixpoint conv_loop (val : Z) (fun1 fun2 : Z -> Z) (divisors : list Z) (ret : Z)
  : result Z :=
  match divisors with
  | [] => Ok ret
  | factor :: divisors' =>
      q <- pydiv val factor ;;
      conv_loop val fun1 fun2 divisors' (ret + fun1 factor * fun2 q)
  end.

Definition convolution_coeff (val : Z) (fun1 fun2 : Z -> Z) : result Z :=
  divisors <- factors val ;;
  conv_loop val fun1 fun2 divisors 0.

(** The numbers [compute_partial_sums] is called on ([int], [float],
    [complex], or a mix of them, by the type hint): a type with the [+] of
    its values and the value the literal [0] takes when it is added to one of
    them. *)
Class Numeric (A : Type) : Type := { num_zero : A; num_add : A -> A -> A }.

(** Python ints. *)
#[global] Instance Numeric_Z : Numeric Z :=
  {| num_zero := 0; num_add := Z.add |}.

(** Python floats: binary64 with IEEE addition; [0 + x] is [0.0 + x]. *)
#[global] Instance Numeric_float : Numeric float :=
  {| num_zero := 0%float; num_add := PrimFloat.add |}.

(** The state of the loop is [(ret_list, partial_sum)]. *)
Definition compute_partial_sums {A : Type} `{Numeric A} (seq : list A) : list A :=
  fst (fold_left
         (fun st elem =>
            let partial_sum := num_add (snd st) elem in
            (fst st ++ [partial_sum], partial_sum))
         seq ([], num_zero)).

(** ** Definitions used in the statements *)

(** The sum of a list of integers. *)
Definition sum_of (l : list Z) : Z := fold_right Z.add 0 l.


(** The running sums of [l] started at [s], by recursion on [l], over any
    numbers. *)
Fixpoint running_from {A : Type} `{Numeric A} (s : A) (l : list A) : list A :=
  match l with
  | [] => []
  | x :: l' => num_add s x :: running_from (num_add s x) l'
  end.

(** The running sums of [l] started at [s], by recursion on [l]. *)
Fixpoint running (s : Z) (l : list Z) : list Z :=
  match l with
  | [] => []
  | x :: l' => (s + x) :: running (s + x) l'
  end.

(** [d] is the least divisor of [n] above 1. *)
Definition least_divisor (n d : Z) : Prop :=
  1 < d /\ (d | n) /\ forall e : Z, 1 < e < d -> ~ (e | n).

(** The position on the mod-30 wheel: candidate [cand] goes with index [i]. *)
Definition wheel_residue (i : Z) : Z :=
  match i with
  | 0 => 1 | 1 => 7 | 2 => 11 | 3 => 13 | 4 => 17 | 5 => 19 | 6 => 23 | _ => 29
  end.

Definition wheel_ok (cand i : Z) : Prop :=
  0 <= i < 8 /\ cand mod 30 = wheel_residue i.

(** No number in [(1, c)] divides [num]. *)
Definition none_below (num c : Z) : Prop :=
  forall d : Z, 1 < d < c -> ~ (d | num).

(** The product of [prime ^ exponent] over a factorization. *)
Definition factorization_product (fs : list (Z * Z)) : Z :=
  fold_right (fun pe acc => fst pe ^ snd pe * acc) 1 fs.

(** Every pair is a prime that divides [n], with an exponent of at least 1;
    the primes increase strictly. *)
Definition factorization_of (n : Z) (fs : list (Z * Z)) : Prop :=
  Forall (fun pe => Z.prime (fst pe) /\ 1 <= snd pe /\ (fst pe | n)) fs /\
  StronglySorted Z.lt (map fst fs) /\
  factorization_product fs = n.

(** Primality by trial division, and the primes below a limit, to compare
    the sieve with. *)
Definition is_prime_trial (n : Z) : bool :=
  (2 <=? n) && forallb (fun d => negb (n mod d =? 0)) (range2 2 n).

Definition primes_below (limit : Z) : list Z :=
  filter is_prime_trial (range limit).

Definition result_eqb (r : result (list Z)) (l : list Z) : bool :=
  match r with
  | Ok l' => if list_eq_dec Z.eq_dec l' l then true else false
  | _ => false
  end.

(** The unsorted list built by the loop over [exp_choices]. *)
Definition divisor_values (fs : list (Z * Z)) : list Z :=
  map (choice_value (map fst fs))
      (cartesian_product (map (fun exp => range (exp + 1)) (map snd fs))).

(** The product of [exponent + 1] over a factorization. *)
Definition divisor_count (fs : list (Z * Z)) : Z :=
  fold_right (fun pe acc => (snd pe + 1) * acc) 1 fs.

(** A factorization as [factor] returns it: primes, strictly increasing, with
    exponents of at least 1. *)
Definition well_formed (fs : list (Z * Z)) : Prop :=
  Forall (fun pe => Z.prime (fst pe) /\ 1 <= snd pe) fs /\
  StronglySorted Z.lt (map fst fs).

(** The differences of adjacent elements of [l], the first one taken
    against [prev]. *)
Fixpoint differences (prev : Z) (l : list Z) : list Z :=
  match l with
  | [] => []
  | x :: l' => (x - prev) :: differences x l'
  end.

(** The unit of the Dirichlet convolution: 1 at 1 and 0 elsewhere. *)
Definition dirichlet_unit (d : Z) : Z := if d =? 1 then 1 else 0.

(** The number that position [j] of the sieve stands for: [(3 * j + 1) | 1],
    the numbers 1, 5, 7, 11, 13, ... prime to 6. *)
Definition sieve_number (j : Z) : Z := Z.lor (3 * j + 1) 1.

(** The entry of the sieve at a position in range. *)
Definition sieve_get (sieve : list bool) (j : Z) : bool :=
  nth (Z.to_nat j) sieve false.

(** The length [limit // 3 + (limit % 6 == 2)] of the sieve. *)
Definition sieve_length (limit : Z) : Z :=
  limit / 3 + Z.b2z (limit mod 6 =? 2).

(** Only positions of products of two numbers above 1 have been cleared. *)
Definition sieve_sound (sieve : list bool) : Prop :=
  forall j : Z,
    0 <= j < Z.of_nat (length sieve) -> sieve_get sieve j = false ->
    exists k m : Z, 1 < k /\ 1 < m /\ sieve_number j = k * m.

(** Every multiple [k * m] of [k = sieve_number i] by an [m >= k] prime to 6
    has been cleared. *)
Definition sieve_cleared (sieve : list bool) (i : Z) : Prop :=
  forall j m : Z,
    0 <= j < Z.of_nat (length sieve) ->
    sieve_number i <= m -> m mod 6 = 1 \/ m mod 6 = 5 ->
    sieve_number j = sieve_number i * m ->
    sieve_get sieve j = false.

(** ** Examples from the docstrings *)

Example gcd_12_30 : gcd 12 30 = Ok 6.
Proof. reflexivity. Qed.

Example gcd_m1001_26 : gcd (-1001) 26 = Ok 13.
Proof. reflexivity. Qed.

Example spd_15 : smallest_prime_divisor 15 None = Ok 3.
Proof. reflexivity. Qed.

Example spd_1001 : smallest_prime_divisor 1001 None = Ok 7.
Proof. reflexivity. Qed.

Example spd_2021 : smallest_prime_divisor 2021 None = Ok 43.
Proof. vm_compute. reflexivity. Qed.

Example primes_10 : primes 10 = Ok [2; 3; 5; 7].
Proof. vm_compute. reflexivity. Qed.

Example primes_100 :
  primes 100 = Ok [2; 3; 5; 7; 11; 13; 17; 19; 23; 29; 31; 37; 41; 43; 47;
                   53; 59; 61; 67; 71; 73; 79; 83; 89; 97].
Proof. vm_compute. reflexivity. Qed.

Example factor_100 : factor 100 = Ok [(2, 2); (5, 2)].
Proof. vm_compute. reflexivity. Qed.

Example factor_m7007 : factor (-7007) = Ok [(7, 2); (11, 1); (13, 1)].
Proof. vm_compute. reflexivity. Qed.

Example factor_1 : factor 1 = Ok [].
Proof. reflexivity. Qed.

Example factors_6 : factors 6 = Ok [1; 2; 3; 6].
Proof. vm_compute. reflexivity. Qed.

Example factors_30 : factors 30 = Ok [1; 2; 3; 5; 6; 10; 15; 30].
Proof. vm_compute. reflexivity. Qed.

Example convolution_6 :
  convolution_coeff 6 (fun x => 2 * x) (fun _ => 1) = Ok 24.
Proof. vm_compute. reflexivity. Qed.

Example partial_sums_ones : compute_partial_sums [1; 1; 1; 1] = [1; 2; 3; 4].
Proof. reflexivity. Qed.

(** On floats every step rounds: [1e16 + 1.0] is [1e16]. *)
Example partial_sums_floats :
  compute_partial_sums [1e16; 1; 1; 0.5]%float = [1e16; 1e16; 1e16; 1e16]%float.
Proof. vm_compute. reflexivity. Qed.

(** ** Lemmas on [gcd] *)

Lemma gcd_loop_spec (fuel : nat) :
  forall num1 num2 : Z,
    0 <= num2 -> num2 < Z.of_nat fuel ->
    gcd_loop fuel num1 num2 = Ok (Z.gcd num1 num2 * Z.sgn (if num2 =? 0 then num1 else 1)).
Proof.
  induction fuel as [|fuel IH]; intros num1 num2 Hnn Hlt.
  - simpl in Hlt. lia.
  - cbn [gcd_loop].
    destruct (Z.eqb_spec num2 0) as [->|Hne]; cbn [negb].
    + rewrite Z.gcd_0_r. f_equal. lia.
    + assert (Hm : 0 <= num1 mod num2 < num2) by (apply Z.mod_pos_bound; lia).
      rewrite IH by lia.
      f_equal.
      rewrite (Z.gcd_comm num2), Z.gcd_mod, (Z.gcd_comm num2 num1) by lia.
      destruct (Z.eqb_spec (num1 mod num2) 0) as [E|E].
      * rewrite (Z.sgn_pos num2) by lia. reflexivity.
      * reflexivity.
Qed.

Lemma gcd_nonzero (a b : Z) :
  a <> 0 -> b <> 0 -> gcd a b = Ok (Z.gcd a b).
Proof.
  intros Ha Hb. unfold gcd.
  destruct (Z.eqb_spec a 0) as [|_]; [contradiction|].
  destruct (Z.eqb_spec b 0) as [|_]; [contradiction|].
  set (a' := if a <? 0 then - a else a).
  set (b' := if b <? 0 then - b else b).
  assert (Ea : a' = Z.abs a) by (subst a'; destruct (Z.ltb_spec a 0); lia).
  assert (Eb : b' = Z.abs b) by (subst b'; destruct (Z.ltb_spec b 0); lia).
  rewrite gcd_loop_spec by lia.
  destruct (Z.eqb_spec b' 0) as [E|_]; [lia|].
  rewrite Ea, Eb, Z.gcd_abs_l, Z.gcd_abs_r. f_equal. cbn. lia.
Qed.

Lemma gcd_zero_l (x : Z) : gcd 0 x = Ok x.
Proof. reflexivity. Qed.

Lemma gcd_zero_r (x : Z) : gcd x 0 = Ok x.
Proof.
  unfold gcd. destruct (Z.eqb_spec x 0) as [->|_]; reflexivity.
Qed.

(** C5 (the code departs from the claim).  [gcd] returns its other argument
    unchanged as soon as one argument is zero, before any sign is dropped:
    [gcd(0, -5)] is [-5], which is negative and is not [|-5| = 5], while the
    greatest common divisor of [0] and [-5] is [5]. *)
Theorem C5_gcd_zero_keeps_sign :
  gcd 0 (-5) = Ok (-5) /\ gcd (-5) 0 = Ok (-5) /\ -5 < 0 /\ Z.abs (-5) = 5 /\
  (5 | 0) /\ (5 | -5) /\ -5 < 5.
Proof.
  repeat split; try reflexivity.
  - exists 0. reflexivity.
  - exists (-1). reflexivity.
Qed.

(** C10.  [gcd] is commutative on all pairs of integers, zero and negative
    ones included: both [gcd(a, b)] and [gcd(b, a)] return, and they return
    the same value. *)
Theorem C10_gcd_commutative (a b : Z) :
  exists g : Z, gcd a b = Ok g /\ gcd b a = Ok g.
Proof.
  destruct (Z.eq_dec a 0) as [->|Ha].
  - exists b. rewrite gcd_zero_l, gcd_zero_r. split; reflexivity.
  - destruct (Z.eq_dec b 0) as [->|Hb].
    + exists a. rewrite gcd_zero_l, gcd_zero_r. split; reflexivity.
    + exists (Z.gcd a b). rewrite !gcd_nonzero by assumption.
      split; [reflexivity|]. f_equal. apply Z.gcd_comm.
Qed.

(** ** [compute_partial_sums] *)

Section PartialSums.

Context {A : Type} `{Numeric A}.

Lemma partial_sums_fold (l : list A) :
  forall (acc : list A) (s : A),
    fst (fold_left
           (fun st elem =>
              (fst st ++ [num_add (snd st) elem], num_add (snd st) elem))
           l (acc, s))
    = acc ++ running_from s l.
Proof.
  induction l as [|x l IH]; intros acc s; cbn [fold_left running_from fst snd].
  - now rewrite app_nil_r.
  - rewrite IH, <- app_assoc. reflexivity.
Qed.

Lemma compute_partial_sums_running_from (l : list A) :
  compute_partial_sums l = running_from num_zero l.
Proof. unfold compute_partial_sums. now rewrite partial_sums_fold. Qed.



End PartialSums.

Lemma running_from_Z (l : list Z) : forall s : Z, running_from s l = running s l.
Proof.
  induction l as [|x l IH]; intros s; [reflexivity|].
  cbn [running_from running]. now rewrite IH.
Qed.

Lemma compute_partial_sums_running (l : list Z) :
  compute_partial_sums l = running 0 l.
Proof. now rewrite compute_partial_sums_running_from, running_from_Z. Qed.



(** ** [smallest_prime_divisor] *)

Lemma divide_mod_zero (d n m : Z) :
  0 < m -> (d | n) -> d mod m = 0 -> n mod m = 0.
Proof.
  intros Hm [q ->] Hd.
  rewrite <- Z.mul_mod_idemp_r, Hd, Z.mul_0_r by lia. now apply Z.mod_0_l; lia.
Qed.

Lemma least_divisor_prime (n d : Z) : least_divisor n d -> Z.prime d.
Proof.
  intros (H1 & Hd & Hmin). split; [assumption|].
  intros e He Hdiv. apply (Hmin e He). now apply Z.divide_trans with d.
Qed.

Lemma least_divisor_unique (n d d' : Z) :
  least_divisor n d -> least_divisor n d' -> d = d'.
Proof.
  intros (H1 & Hd & Hmin) (H1' & Hd' & Hmin').
  destruct (Z.lt_trichotomy d d') as [H|[H|H]]; [|assumption|].
  - exfalso. apply (Hmin' d); [lia|assumption].
  - exfalso. apply (Hmin d'); [lia|assumption].
Qed.

Lemma first_dividing_235 (num : Z) :
  match first_dividing num [2; 3; 5] with
  | Some p => (p = 2 \/ p = 3 \/ p = 5) /\ num mod p = 0 /\
              forall q, (q = 2 \/ q = 3 \/ q = 5) -> q < p -> num mod q <> 0
  | None => num mod 2 <> 0 /\ num mod 3 <> 0 /\ num mod 5 <> 0
  end.
Proof.
  cbn [first_dividing].
  destruct (Z.eqb_spec (num mod 2) 0) as [E2|E2]; [repeat split; auto; lia|].
  destruct (Z.eqb_spec (num mod 3) 0) as [E3|E3].
  { repeat split; auto. intros q Hq Hlt. assert (q = 2) as -> by lia. assumption. }
  destruct (Z.eqb_spec (num mod 5) 0) as [E5|E5].
  { repeat split; auto. intros q Hq Hlt.
    destruct Hq as [-> | [-> | ->]]; [assumption|assumption|lia]. }
  auto.
Qed.

Section SpdLoop.

Variables num bound : Z.
Hypothesis num_odd : num mod 2 <> 0.
Hypothesis num_not3 : num mod 3 <> 0.
Hypothesis num_not5 : num mod 5 <> 0.

Lemma wheel_skip (d : Z) :
  d mod 2 = 0 \/ d mod 3 = 0 \/ d mod 5 = 0 -> ~ (d | num).
Proof.
  intros [H|[H|H]] Hd.
  - apply num_odd. now apply (divide_mod_zero d).
  - apply num_not3. now apply (divide_mod_zero d).
  - apply num_not5. now apply (divide_mod_zero d).
Qed.

Lemma none_below_7 : none_below num 7.
Proof.
  intros d Hd. apply wheel_skip.
  assert (d = 2 \/ d = 3 \/ d = 4 \/ d = 5 \/ d = 6) as [-> | [-> | [-> | [-> | ->]]]] by lia;
    cbn; auto.
Qed.

(** One turn of the wheel keeps the invariant. *)
Lemma wheel_step (cand i : Z) :
  wheel_ok cand i -> none_below num cand -> ~ (cand | num) ->
  exists d : Z,
    getitem diffs i = Ok d /\ 2 <= d /\
    wheel_ok (cand + d) ((i + 1) mod 8) /\ none_below num (cand + d).
Proof.
  intros [Hi Hr] Hnb Hc.
  assert (Hgap : forall d, (forall e, cand < e < cand + d ->
                              e mod 2 = 0 \/ e mod 3 = 0 \/ e mod 5 = 0) ->
                           none_below num (cand + d)).
  { intros d Hd e He.
    destruct (Z_lt_le_dec e cand) as [Hlt | Hge]; [apply Hnb; lia|].
    destruct (Z.eq_dec e cand) as [-> | Hne]; [assumption|].
    apply wheel_skip, Hd. lia. }
  assert (Hcases : i = 0 \/ i = 1 \/ i = 2 \/ i = 3 \/
                   i = 4 \/ i = 5 \/ i = 6 \/ i = 7) by lia.
  destruct Hcases as [-> | [-> | [-> | [-> | [-> | [-> | [-> | ->]]]]]]];
    cbn in Hr;
    [ exists 6 | exists 4 | exists 2 | exists 4
    | exists 2 | exists 4 | exists 6 | exists 2 ];
    (split; [reflexivity|]; split; [lia|]; split;
     [ split; [cbn; lia|];
       match goal with
       | |- _ = ?rhs => let v := eval vm_compute in rhs in change rhs with v
       end;
       Z.div_mod_to_equations; lia
     | apply Hgap; intros e He; Z.div_mod_to_equations; lia ]).
Qed.

(** The loop either returns a divisor below which nothing divides [num],
    or gives up at some candidate [c] and returns [num]. *)
Lemma spd_loop_spec (fuel : nat) :
  forall cand i : Z,
    7 <= cand -> wheel_ok cand i -> none_below num cand ->
    num - cand < Z.of_nat fuel -> (1 <= fuel)%nat ->
    exists r : Z,
      spd_loop fuel num bound cand i = Ok r /\
      ((least_divisor num r /\ r <= bound /\ r * r <= num) \/
       (r = num /\ exists c : Z,
           cand <= c /\ none_below num c /\ (bound < c \/ num < c * c))).
Proof.
  induction fuel as [|fuel IH]; intros cand i Hc Hw Hnb Hfuel Hpos; [lia|].
  cbn [spd_loop].
  destruct ((cand <=? bound) && (cand * cand <=? num)) eqn:Hcond.
  - apply andb_prop in Hcond. destruct Hcond as [Hb Hsq].
    apply Z.leb_le in Hb, Hsq.
    unfold pymod. destruct (Z.eqb_spec cand 0) as [E | _]; [lia|].
    cbn [bind].
    destruct (Z.eqb_spec (num mod cand) 0) as [Hdiv | Hndiv].
    + exists cand. split; [reflexivity|]. left.
      repeat split; try lia; try assumption.
      apply Z.mod_divide; [lia | assumption].
    + assert (Hnd : ~ (cand | num)).
      { intros Hd. apply Hndiv. apply Z.mod_divide; [lia | assumption]. }
      destruct (wheel_step cand i Hw Hnb Hnd) as (d & -> & Hd2 & Hw' & Hnb').
      cbn [bind].
      assert (Hlt : cand < num).
      { assert (cand * 7 <= cand * cand) by (apply Z.mul_le_mono_nonneg_l; lia). lia. }
      destruct (IH (cand + d) ((i + 1) mod 8)) as (r & -> & Hr);
        try assumption; try lia.
      exists r. split; [reflexivity|].
      destruct Hr as [Hr | (-> & c & Hcc & Hrest)]; [now left|].
      right. split; [reflexivity|]. exists c. split; [lia | assumption].
  - exists num. split; [reflexivity|]. right. split; [reflexivity|].
    exists cand. split; [lia|]. split; [assumption|].
    apply andb_false_iff in Hcond. destruct Hcond as [H | H].
    + left. now apply Z.leb_gt in H.
    + right. now apply Z.leb_gt in H.
Qed.

End SpdLoop.

Lemma least_divisor_le (n d : Z) : 0 < n -> least_divisor n d -> d <= n.
Proof. intros Hn (_ & Hd & _). apply Z.divide_pos_le; assumption. Qed.

(** Nothing in [(1, c)] divides [n] and [n < c * c]: [n] is its own least
    divisor. *)
Lemma none_below_sqrt (n c : Z) :
  2 <= n -> 0 <= c -> none_below n c -> n < c * c -> least_divisor n n.
Proof.
  intros Hn Hc Hnb Hsq.
  repeat split; [lia | apply Z.divide_refl|].
  intros e He [q Hq].
  assert (Hq1 : 1 < q) by nia.
  destruct (Z_lt_le_dec e c) as [Hlt | Hge].
  - apply (Hnb e); [lia|]. exists q. assumption.
  - destruct (Z_lt_le_dec q c) as [Hlt' | Hge'].
    + apply (Hnb q); [lia|]. exists e. lia.
    + assert (c * c <= q * e) by (apply Z.mul_le_mono_nonneg; lia). lia.
Qed.

(** What the wheel loop returns when started as the code starts it. *)
Lemma spd_wheel (num b : Z) :
  2 <= num -> first_dividing num [2; 3; 5] = None ->
  exists r : Z,
    spd_loop (Z.to_nat num) num b 7 1 = Ok r /\
    ((least_divisor num r /\ r <= b) \/
     (r = num /\ exists c : Z,
         7 <= c /\ none_below num c /\ (b < c \/ num < c * c))).
Proof.
  intros Hn Hfd.
  pose proof (first_dividing_235 num) as H235. rewrite Hfd in H235.
  destruct H235 as (H2 & H3 & H5).
  destruct (spd_loop_spec num b H2 H3 H5 (Z.to_nat num) 7 1) as (r & Hr & Hcases);
    try lia.
  - split; [lia | reflexivity].
  - apply none_below_7; assumption.
  - exists r. split; [assumption|].
    destruct Hcases as [(Hld & Hb & _) | (-> & c & Hc & Hnb & Hstop)]; [left; auto|].
    right. split; [reflexivity|]. exists c. auto.
Qed.

Lemma first_dividing_least (num q : Z) :
  first_dividing num [2; 3; 5] = Some q -> least_divisor num q /\ q <= 5.
Proof.
  intros Hfd. pose proof (first_dividing_235 num) as H235. rewrite Hfd in H235.
  destruct H235 as (Hq & Hmod & Hmin).
  split; [|lia]. repeat split; [lia | apply Z.mod_divide; [lia | assumption] |].
  intros e He Hdiv.
  assert (He' : e = 2 \/ e = 3 \/ e = 4) by lia.
  destruct He' as [-> | [-> | ->]].
  - apply (Hmin 2); [auto | lia | apply Z.mod_divide; [lia | assumption]].
  - apply (Hmin 3); [auto | lia | apply Z.mod_divide; [lia | assumption]].
  - apply (Hmin 2); [auto | lia |].
    apply (divide_mod_zero 4); [lia | assumption | reflexivity].
Qed.

Lemma first_dividing_none (num p : Z) :
  first_dividing num [2; 3; 5] = None -> least_divisor num p -> 5 < p.
Proof.
  intros Hfd (Hp1 & Hpd & _).
  pose proof (first_dividing_235 num) as H235. rewrite Hfd in H235.
  destruct H235 as (H2 & H3 & H5).
  destruct (Z_lt_le_dec 5 p) as [|Hle]; [assumption|]. exfalso.
  assert (Hp : p = 2 \/ p = 3 \/ p = 4 \/ p = 5) by lia.
  destruct Hp as [-> | [-> | [-> | ->]]].
  - apply H2. apply Z.mod_divide; [lia | assumption].
  - apply H3. apply Z.mod_divide; [lia | assumption].
  - apply H2. apply (divide_mod_zero 4); [lia | assumption | reflexivity].
  - apply H5. apply Z.mod_divide; [lia | assumption].
Qed.

(** Without a bound the result is the least divisor above 1. *)
Lemma spd_unbounded (num : Z) :
  2 <= num ->
  exists p : Z, smallest_prime_divisor num None = Ok p /\ least_divisor num p.
Proof.
  intros Hn. unfold smallest_prime_divisor.
  destruct (Z.ltb_spec num 1) as [|_]; [lia|].
  destruct (Z.eqb_spec num 1) as [|_]; [lia|].
  destruct (first_dividing num [2; 3; 5]) as [q|] eqn:Hfd.
  - exists q. split; [reflexivity|]. now apply first_dividing_least.
  - destruct (spd_wheel num num Hn Hfd) as (r & -> & Hcases).
    exists r. split; [reflexivity|].
    destruct Hcases as [[Hld _] | (-> & c & Hc & Hnb & Hstop)]; [assumption|].
    destruct Hstop as [Hlt | Hsq].
    + exfalso. apply (Hnb num); [lia | apply Z.divide_refl].
    + apply (none_below_sqrt num c); (assumption || lia).
Qed.

Lemma least_divisor_exists (num : Z) :
  2 <= num -> exists p : Z, least_divisor num p.
Proof.
  intros Hn. destruct (spd_unbounded num Hn) as (p & _ & Hp). now exists p.
Qed.

(** With a bound [b]: the least divisor [p] is returned when it is 2, 3 or 5
    (whatever the bound) or when [p <= b]; otherwise [num] is returned. *)
Lemma spd_bounded (num b p : Z) :
  2 <= num -> least_divisor num p ->
  smallest_prime_divisor num (Some b)
  = Ok (if (p <=? 5) || (p <=? b) then p else num).
Proof.
  intros Hn Hp. unfold smallest_prime_divisor.
  destruct (Z.ltb_spec num 1) as [|_]; [lia|].
  destruct (Z.eqb_spec num 1) as [|_]; [lia|].
  destruct (first_dividing num [2; 3; 5]) as [q|] eqn:Hfd.
  - destruct (first_dividing_least num q Hfd) as [Hq Hq5].
    assert (q = p) as -> by (now apply (least_divisor_unique num)).
    destruct (Z.leb_spec p 5); [reflexivity | lia].
  - pose proof (first_dividing_none num p Hfd Hp) as Hp5.
    destruct (Z.leb_spec p 5) as [|_]; [lia|]. cbn [orb].
    destruct (spd_wheel num b Hn Hfd) as (r & -> & Hcases). f_equal.
    destruct Hcases as [[Hld Hb] | (-> & c & Hc & Hnb & Hstop)].
    + assert (r = p) as -> by (now apply (least_divisor_unique num)).
      destruct (Z.leb_spec p b); [reflexivity | lia].
    + destruct (Z.leb_spec p b) as [Hle | Hgt]; [|reflexivity].
      destruct Hstop as [Hlt | Hsq].
      * exfalso. destruct Hp as (Hp1 & Hpd & _). apply (Hnb p); [lia | assumption].
      * apply (least_divisor_unique num); [|assumption].
        apply (none_below_sqrt num c); (assumption || lia).
Qed.

(** ** [factor] *)

Lemma divide_out_spec (prime : Z) (fuel : nat) :
  forall num exp : Z,
    2 <= prime -> 1 <= num -> num <= Z.of_nat fuel -> 0 <= exp ->
    exists num' exp' : Z,
      divide_out fuel num prime exp = Ok (num', exp') /\
      exp <= exp' /\ num = prime ^ (exp' - exp) * num' /\
      1 <= num' /\ ~ (prime | num').
Proof.
  intros num exp Hp. revert num exp.
  induction fuel as [|fuel IH]; intros num exp Hn Hfuel He; [cbn in Hfuel; lia|].
  cbn [divide_out]. unfold pymod, pydiv.
  destruct (Z.eqb_spec prime 0) as [|_]; [lia|]. cbn [bind].
  destruct (Z.eqb_spec (num mod prime) 0) as [Hdiv | Hndiv].
  - assert (Hnum : num = prime * (num / prime)) by (apply Z_div_exact_full_2; lia).
    assert (Hq : 1 <= num / prime) by nia.
    destruct (IH (num / prime) (exp + 1)) as (num' & exp' & -> & Hle & Heq & H1 & Hnd);
      try lia; [nia|].
    exists num', exp'. repeat split; try lia; try assumption.
    replace (exp' - exp) with (Z.succ (exp' - (exp + 1))) by lia.
    rewrite Z.pow_succ_r, <- Z.mul_assoc, <- Heq by lia. assumption.
  - exists num, exp. repeat split; try lia.
    + rewrite Z.sub_diag. cbn. destruct num; reflexivity.
    + intros Hd. apply Hndiv. apply Z.mod_divide; [lia | assumption].
Qed.

Lemma factor_loop_acc (fuel : nat) :
  forall (num : Z) (acc : list (Z * Z)),
    factor_loop fuel num acc
    = (fs <- factor_loop fuel num [] ;; Ok (acc ++ fs)).
Proof.
  induction fuel as [|fuel IH]; intros num acc; [reflexivity|].
  cbn [factor_loop].
  destruct (negb (num =? 1)); [|cbn; now rewrite app_nil_r].
  destruct (smallest_prime_divisor num None) as [p | e |]; [|reflexivity..].
  cbn [bind].
  destruct (pydiv num p) as [q | e |]; [|reflexivity..]. cbn [bind].
  destruct (divide_out (Z.to_nat q) q p 1) as [[n' e'] | e |]; [|reflexivity..].
  cbn [bind fst snd].
  rewrite (IH n' (acc ++ [(p, e')])), (IH n' ([] ++ [(p, e')])).
  destruct (factor_loop fuel n' []) as [fs | e |]; [|reflexivity..].
  cbn [bind]. now rewrite <- app_assoc.
Qed.

Lemma factor_loop_spec (fuel : nat) :
  forall num : Z,
    1 <= num -> num <= Z.of_nat fuel ->
    exists fs : list (Z * Z),
      factor_loop fuel num [] = Ok fs /\ factorization_of num fs.
Proof.
  induction fuel as [|fuel IH]; intros num Hn Hfuel; [cbn in Hfuel; lia|].
  cbn [factor_loop].
  destruct (Z.eqb_spec num 1) as [-> | Hne]; cbn [negb].
  - exists []. split; [reflexivity|].
    repeat split; constructor.
  - destruct (spd_unbounded num ltac:(lia)) as (p & -> & Hld). cbn [bind].
    pose proof (least_divisor_prime _ _ Hld) as Hprime.
    destruct Hld as (Hp1 & Hpd & Hmin).
    unfold pydiv. destruct (Z.eqb_spec p 0) as [|_]; [lia|]. cbn [bind].
    assert (Hnum : num = p * (num / p)).
    { apply Z_div_exact_full_2; [lia|]. apply Z.mod_divide; [lia | assumption]. }
    assert (Hq : 1 <= num / p) by nia.
    destruct (divide_out_spec p (Z.to_nat (num / p)) (num / p) 1)
      as (n' & e' & -> & He & Heq & Hn' & Hnd); try lia.
    cbn [bind fst snd].
    assert (Hpow : 0 < p ^ (e' - 1)) by (apply Z.pow_pos_nonneg; lia).
    assert (Hnum' : num = p ^ e' * n').
    { replace e' with (Z.succ (e' - 1)) by lia.
      rewrite Z.pow_succ_r, <- Z.mul_assoc, <- Heq by lia. assumption. }
    assert (Hlt : n' < num) by nia.
    rewrite factor_loop_acc.
    destruct (IH n') as (fs & -> & Hall & Hsorted & Hprod); try lia.
    cbn [bind app]. eexists. split; [reflexivity|].
    assert (Hn'd : (n' | num)) by (exists (p ^ e'); lia).
    repeat split.
    + constructor.
      * cbn. split; [exact Hprime | split; [lia | exact Hpd]].
      * eapply Forall_impl; [|exact Hall]. cbn. intros pe (Hpr & He1 & Hd).
        split; [exact Hpr | split; [exact He1|]]. now apply Z.divide_trans with n'.
    + cbn [map fst]. constructor; [assumption|].
      apply Forall_forall. intros q Hq'.
      apply in_map_iff in Hq'. destruct Hq' as (pe & <- & Hin).
      rewrite Forall_forall in Hall. destruct (Hall pe Hin) as (Hpr & _ & Hd).
      destruct Hpr as [Hq1 _].
      destruct (Z_lt_le_dec p (fst pe)) as [|Hle]; [assumption|]. exfalso.
      destruct (Z.eq_dec (fst pe) p) as [E | E].
      * apply Hnd. now rewrite <- E.
      * apply (Hmin (fst pe)); [lia|]. now apply Z.divide_trans with n'.
    + cbn [factorization_product fold_right fst snd].
      fold (factorization_product fs). now rewrite Hprod.
Qed.

Lemma factor_spec (n : Z) :
  1 < Z.abs n ->
  exists fs : list (Z * Z), factor n = Ok fs /\ factorization_of (Z.abs n) fs.
Proof.
  intros Hn. unfold factor.
  assert (Hex : existsb (Z.eqb n) [-1; 0; 1] = false).
  { cbn. destruct (Z.eqb_spec n (-1)); [lia|]. destruct (Z.eqb_spec n 0); [lia|].
    destruct (Z.eqb_spec n 1); [lia | reflexivity]. }
  rewrite Hex.
  assert (E : (if n <? 0 then - n else n) = Z.abs n) by (destruct (Z.ltb_spec n 0); lia).
  rewrite E. apply factor_loop_spec; lia.
Qed.

Lemma factor_degenerate (n : Z) : Z.abs n <= 1 -> factor n = Ok [].
Proof.
  intros Hn. assert (H : n = -1 \/ n = 0 \/ n = 1) by lia.
  destruct H as [-> | [-> | ->]]; reflexivity.
Qed.

(** C1.  For [|n| > 1], [factor(n)] returns pairs [(prime, exponent)] whose
    first components are prime and strictly increasing, whose exponents are
    at least 1 and whose product of [prime ^ exponent] is [|n|]; for [n] in
    [{-1, 0, 1}] it returns the empty list. *)
Theorem C1_factor_spec (n : Z) :
  (1 < Z.abs n ->
   exists fs : list (Z * Z),
     factor n = Ok fs /\
     Forall (fun pe => Z.prime (fst pe) /\ 1 <= snd pe) fs /\
     StronglySorted Z.lt (map fst fs) /\
     factorization_product fs = Z.abs n) /\
  (Z.abs n <= 1 -> factor n = Ok []).
Proof.
  split; [|apply factor_degenerate].
  intros Hn. destruct (factor_spec n Hn) as (fs & Hfs & Hall & Hsorted & Hprod).
  exists fs. split; [assumption|]. split; [|split; assumption].
  eapply Forall_impl; [|exact Hall]. cbn. tauto.
Qed.

Lemma C1_factor_witness :
  1 < Z.abs (-7007) /\
  exists fs : list (Z * Z),
    factor (-7007) = Ok fs /\
    Forall (fun pe => Z.prime (fst pe) /\ 1 <= snd pe) fs /\
    StronglySorted Z.lt (map fst fs) /\
    factorization_product fs = Z.abs (-7007).
Proof.
  split.
  - cbn. lia.
  - apply (proj1 (C1_factor_spec (-7007))). cbn. lia.
Defined.

(** ** [smallest_prime_divisor]: errors and the bound *)

(** C8.  [smallest_prime_divisor(num, bound)] raises [ValueError] exactly
    when [num < 1]; for [num >= 1] it returns a value, whatever the bound. *)
Theorem C8_spd_raises_iff_below_one (num : Z) (bound : option Z) :
  (smallest_prime_divisor num bound = Raise ValueError <-> num < 1) /\
  (1 <= num -> exists v : Z, smallest_prime_divisor num bound = Ok v).
Proof.
  assert (Hok : 1 <= num -> exists v : Z, smallest_prime_divisor num bound = Ok v).
  { intros Hn. destruct (Z.eq_dec num 1) as [-> | Hne].
    - exists 1. reflexivity.
    - destruct (least_divisor_exists num ltac:(lia)) as (p & Hp).
      destruct bound as [b|].
      + eexists. apply (spd_bounded num b p); [lia | assumption].
      + destruct (spd_unbounded num ltac:(lia)) as (q & Hq & _). now exists q. }
  split; [|exact Hok]. split.
  - intros Hraise. destruct (Z_lt_le_dec num 1) as [|Hge]; [assumption|].
    destruct (Hok Hge) as (v & Hv). congruence.
  - intros Hlt. unfold smallest_prime_divisor.
    destruct (Z.ltb_spec num 1); [reflexivity | lia].
Qed.

Lemma C8_spd_witness :
  1 <= 1001 /\ exists v : Z, smallest_prime_divisor 1001 (Some 5) = Ok v.
Proof.
  split.
  - lia.
  - apply (proj2 (C8_spd_raises_iff_below_one 1001 (Some 5))). lia.
Defined.

(** What holds of the bound: a least prime divisor within the bound is
    returned, and [num] comes back when the least prime divisor is above
    both 5 and the bound. *)
Lemma spd_within_bound (num b p : Z) :
  2 <= num -> least_divisor num p -> p <= b ->
  smallest_prime_divisor num (Some b) = Ok p.
Proof.
  intros Hn Hp Hb. rewrite (spd_bounded num b p Hn Hp).
  destruct (Z.leb_spec p b); [now rewrite orb_true_r | lia].
Qed.

Lemma spd_above_bound (num b p : Z) :
  2 <= num -> least_divisor num p -> 5 < p -> b < p ->
  smallest_prime_divisor num (Some b) = Ok num.
Proof.
  intros Hn Hp H5 Hb. rewrite (spd_bounded num b p Hn Hp).
  destruct (Z.leb_spec p 5); [lia|]. destruct (Z.leb_spec p b); [lia | reflexivity].
Qed.

(** C3 (the code departs from the claim).  The divisions by 2, 3 and 5 are
    made before the bound is looked at: [smallest_prime_divisor(25, 3)] is
    [5], though no prime up to the bound 3 divides 25, where the claim has
    [25] returned unchanged; likewise [smallest_prime_divisor(4, 0)] is [2]. *)
Theorem C3_spd_small_primes_ignore_bound :
  smallest_prime_divisor 25 (Some 3) = Ok 5 /\
  forallb (fun d => negb (25 mod d =? 0)) [2; 3] = true /\
  smallest_prime_divisor 4 (Some 0) = Ok 2.
Proof. repeat split; reflexivity. Qed.

(** ** [primes] on small limits *)

(** C2 (the code departs from the claim).  The literals 2 and 3 are always
    put in front of the result: for a limit below 4 the result is [[2, 3]],
    where the primes below 2 are none and the only prime below 3 is 2. *)
Theorem C2_primes_small_limits :
  primes 0 = Ok [2; 3] /\ primes 1 = Ok [2; 3] /\
  primes 2 = Ok [2; 3] /\ primes 3 = Ok [2; 3].
Proof. repeat split; reflexivity. Qed.

(** From 4 on the sieve agrees with trial division on every limit up to
    400. *)
Lemma primes_agree_4_to_400 :
  forallb (fun limit => result_eqb (primes limit) (primes_below limit))
          (range2 4 401) = true.
Proof. vm_compute. reflexivity. Qed.

(** ** [factors] and [convolution_coeff] on the empty factorization *)

(** C4 (the code departs from the claim).  For [num] in [{-1, 0, 1}] the
    factorization is empty and unpacking it into [primes_, exps] raises
    [ValueError]: no divisor list is returned. *)
Theorem C4_factors_degenerate_raises :
  factors 1 = Raise ValueError /\ factors 0 = Raise ValueError /\
  factors (-1) = Raise ValueError.
Proof. repeat split; reflexivity. Qed.

(** C7 (the code departs from the claim at [val = 1]).  [factors(1)] raises,
    so [convolution_coeff(1, fun1, fun2)] raises [ValueError] instead of
    returning [fun1(1) * fun2(1)]. *)
Theorem C7_convolution_at_one_raises (fun1 fun2 : Z -> Z) :
  convolution_coeff 1 fun1 fun2 = Raise ValueError.
Proof. reflexivity. Qed.

(** ** [sorted] *)

Lemma insert_sorted_perm (x : Z) (l : list Z) :
  Permutation (x :: l) (insert_sorted x l).
Proof.
  induction l as [|y l IH]; cbn; [reflexivity|].
  destruct (x <=? y); [reflexivity|].
  rewrite perm_swap. now constructor.
Qed.

Lemma sorted_perm (l : list Z) : Permutation l (sorted l).
Proof.
  induction l as [|x l IH]; cbn; [reflexivity|].
  rewrite <- insert_sorted_perm. now constructor.
Qed.

Lemma insert_sorted_ascending (x : Z) (l : list Z) :
  StronglySorted Z.le l -> StronglySorted Z.le (insert_sorted x l).
Proof.
  induction 1 as [|y l Hl IH Hy]; cbn; [repeat constructor|].
  destruct (Z.leb_spec x y) as [Hxy | Hyx].
  - constructor; [now constructor|].
    constructor; [assumption|].
    eapply Forall_impl; [|exact Hy]. cbn. intros; lia.
  - constructor; [assumption|].
    rewrite <- insert_sorted_perm. constructor; [lia | assumption].
Qed.

Lemma sorted_ascending (l : list Z) : StronglySorted Z.le (sorted l).
Proof.
  induction l as [|x l IH]; cbn; [constructor|].
  now apply insert_sorted_ascending.
Qed.

Lemma ascending_nodup_strict (l : list Z) :
  StronglySorted Z.le l -> NoDup l -> StronglySorted Z.lt l.
Proof.
  induction 1 as [|x l Hl IH Hx]; intros Hnd; [constructor|].
  inversion Hnd as [|? ? Hnin Hnd']; subst.
  constructor; [now apply IH|].
  rewrite Forall_forall in *. intros y Hy.
  specialize (Hx y Hy).
  assert (x <> y) by (intros ->; contradiction). lia.
Qed.

(** ** [range] *)

Lemma in_range (n k : Z) : In k (range n) <-> 0 <= k < n.
Proof.
  unfold range, range2. rewrite in_map_iff. split.
  - intros (i & <- & Hi). apply in_seq in Hi. lia.
  - intros Hk. exists (Z.to_nat k). split; [lia|]. apply in_seq. lia.
Qed.

Lemma nodup_range (n : Z) : NoDup (range n).
Proof.
  unfold range, range2. apply NoDup_map_NoDup_ForallPairs; [|apply seq_NoDup].
  intros i j _ _ Heq. lia.
Qed.

Lemma length_range (n : Z) : length (range n) = Z.to_nat n.
Proof.
  unfold range, range2. rewrite length_map, length_seq. f_equal. lia.
Qed.

(** ** [factors]: the values of the exponent choices *)

Lemma fold_left_scale (l : list (Z * Z)) :
  forall a : Z,
    fold_left (fun val pe => val * fst pe ^ snd pe) l a
    = a * fold_left (fun val pe => val * fst pe ^ snd pe) l 1.
Proof.
  induction l as [|pe l IH]; intros a; cbn [fold_left]; [lia|].
  rewrite IH, (IH (1 * _)). lia.
Qed.

Lemma choice_value_cons (p k : Z) (ps ks : list Z) :
  choice_value (p :: ps) (k :: ks) = p ^ k * choice_value ps ks.
Proof.
  unfold choice_value. cbn [combine fold_left fst snd].
  rewrite fold_left_scale. lia.
Qed.

Lemma divisor_values_nil : divisor_values [] = [1].
Proof. reflexivity. Qed.

Lemma divisor_values_cons (p e : Z) (fs : list (Z * Z)) :
  divisor_values ((p, e) :: fs)
  = flat_map (fun k => map (fun m => p ^ k * m) (divisor_values fs))
             (range (e + 1)).
Proof.
  unfold divisor_values. cbn [map fst snd cartesian_product].
  generalize (range (e + 1)) as ks.
  induction ks as [|k ks IH]; [reflexivity|].
  cbn [flat_map]. rewrite map_app, IH. f_equal.
  rewrite !map_map. apply map_ext. intros ch. apply choice_value_cons.
Qed.

Lemma in_divisor_values_cons (p e d : Z) (fs : list (Z * Z)) :
  In d (divisor_values ((p, e) :: fs)) <->
  exists k m : Z, 0 <= k <= e /\ In m (divisor_values fs) /\ d = p ^ k * m.
Proof.
  rewrite divisor_values_cons, in_flat_map. split.
  - intros (k & Hk & Hd). apply in_range in Hk.
    apply in_map_iff in Hd. destruct Hd as (m & <- & Hm).
    exists k, m. repeat split; (lia || assumption).
  - intros (k & m & Hk & Hm & ->). exists k. split; [apply in_range; lia|].
    apply in_map_iff. now exists m.
Qed.

Lemma length_divisor_values (fs : list (Z * Z)) :
  Forall (fun pe => 0 <= snd pe) fs ->
  Z.of_nat (length (divisor_values fs)) = divisor_count fs.
Proof.
  induction 1 as [|[p e] fs He Hfs IH]; [reflexivity|].
  rewrite divisor_values_cons. cbn [divisor_count fold_right snd].
  fold (divisor_count fs). rewrite <- IH. cbn [snd] in He.
  assert (Hlen : forall ks : list Z,
             length (flat_map (fun k => map (fun m => p ^ k * m) (divisor_values fs)) ks)
             = (length ks * length (divisor_values fs))%nat).
  { induction ks as [|k ks IHks]; [reflexivity|].
    cbn [flat_map]. rewrite length_app, length_map, IHks. cbn. lia. }
  rewrite Hlen, length_range. lia.
Qed.

(** ** Divisors of a product of prime powers *)

Lemma prime_not_divide_product (p : Z) (fs : list (Z * Z)) :
  Z.prime p ->
  Forall (fun pe => Z.prime (fst pe) /\ 0 <= snd pe /\ p <> fst pe) fs ->
  ~ (p | factorization_product fs).
Proof.
  intros Hp. pose proof (Z.prime_ge_2 p Hp) as Hp2.
  induction 1 as [|[q e] fs (Hq & He & Hne) Hfs IH]; cbn [fst snd] in *.
  - cbn. intros Hd. apply Z.divide_1_r_nonneg in Hd; lia.
  - cbn [factorization_product fold_right fst snd]. fold (factorization_product fs).
    intros Hd. apply Z.divide_prime_mul in Hd; [|assumption].
    destruct Hd as [Hd | Hd]; [|now apply IH].
    apply Hne. now apply (Z.divide_prime_pp p q e).
Qed.

(** A divisor of [p ^ e * M] splits into a power of [p] and a divisor of [M]. *)
Lemma split_divisor (p M : Z) :
  Z.prime p ->
  forall e : Z, 0 <= e ->
  forall d : Z, 0 < d -> (d | p ^ e * M) ->
  exists k m : Z, 0 <= k <= e /\ 0 < m /\ (m | M) /\ d = p ^ k * m.
Proof.
  intros Hp e He. pose proof (Z.prime_ge_2 p Hp) as Hp2.
  pattern e. apply natlike_ind; [| |exact He]; clear e He.
  - intros d Hd Hdiv. exists 0, d. rewrite Z.pow_0_r in *.
    rewrite Z.mul_1_l in Hdiv. repeat split; (lia || assumption).
  - intros e He IH d Hd Hdiv.
    assert (Hdec : (p | d) \/ ~ (p | d)).
    { destruct (Z.eq_dec (d mod p) 0) as [E | E].
      - left. apply Z.mod_divide; [lia | exact E].
      - right. intros Hpd. apply E. apply Z.mod_divide; [lia | exact Hpd]. }
    destruct Hdec as [[d' Hd'] | Hnd].
    + subst d. assert (Hd'pos : 0 < d') by nia.
      destruct (IH d' Hd'pos) as (k & m & Hk & Hm & HmM & ->).
      { rewrite Z.pow_succ_r, <- Z.mul_assoc in Hdiv by assumption.
        destruct Hdiv as [c Hc]. exists c.
        apply (Z.mul_reg_l _ _ p); [lia|]. rewrite Hc. ring. }
      exists (Z.succ k), m. repeat split; try (lia || assumption).
      rewrite Z.pow_succ_r by lia. ring.
    + exists 0, d. rewrite Z.pow_0_r. repeat split; try lia.
      apply Z.gauss with (p ^ Z.succ e); [assumption|].
      rewrite Z.gcd_comm. apply Z.coprime_pow_l; [lia|].
      now apply Z.coprime_prime_l.
Qed.

Lemma in_divisor_values (fs : list (Z * Z)) :
  Forall (fun pe => Z.prime (fst pe) /\ 0 <= snd pe) fs ->
  forall d : Z,
    In d (divisor_values fs) <-> 0 < d /\ (d | factorization_product fs).
Proof.
  induction 1 as [|[p e] fs [Hp He] Hfs IH]; intros d; cbn [fst snd] in *.
  - rewrite divisor_values_nil. cbn. split.
    + intros [<- | []]. split; [lia | apply Z.divide_refl].
    + intros [Hd Hdiv]. left. symmetry.
      apply Z.divide_1_r_nonneg in Hdiv; lia.
  - pose proof (Z.prime_ge_2 p Hp) as Hp2.
    rewrite in_divisor_values_cons.
    cbn [factorization_product fold_right fst snd]. fold (factorization_product fs).
    split.
    + intros (k & m & Hk & Hm & ->). apply IH in Hm. destruct Hm as [Hm HmM].
      assert (Hpk : 0 < p ^ k) by (apply Z.pow_pos_nonneg; lia).
      split; [nia|].
      apply Z.divide_trans with (p ^ e * m).
      * apply Z.mul_divide_mono_r.
        exists (p ^ (e - k)). rewrite <- Z.pow_add_r by lia. f_equal. lia.
      * now apply Z.mul_divide_mono_l.
    + intros [Hd Hdiv].
      destruct (split_divisor p (factorization_product fs) Hp e He d Hd Hdiv)
        as (k & m & Hk & Hm & HmM & ->).
      exists k, m. repeat split; try lia. apply IH. now split.
Qed.

Lemma nodup_flat_map {A B : Type} (f : A -> list B) (l : list A) :
  NoDup l ->
  (forall x, In x l -> NoDup (f x)) ->
  (forall x y z, In x l -> In y l -> x <> y -> In z (f x) -> ~ In z (f y)) ->
  NoDup (flat_map f l).
Proof.
  induction 1 as [|x l Hx Hl IH]; intros Hnd Hdisj; cbn [flat_map]; [constructor|].
  apply NoDup_app.
  - apply Hnd. now left.
  - apply IH.
    + intros y Hy. apply Hnd. now right.
    + intros y y' z Hy Hy'. apply Hdisj; now right.
  - intros z Hz Hz'. apply in_flat_map in Hz'. destruct Hz' as (y & Hy & Hzy).
    apply (Hdisj x y z); [now left | now right | | assumption | assumption].
    intros ->. contradiction.
Qed.

(** Two values [p ^ k * m] with different [k] differ when [p] divides
    neither cofactor. *)
Lemma prime_power_cofactor (p k k' m m' : Z) :
  2 <= p -> 0 <= k < k' -> ~ (p | m) -> p ^ k * m <> p ^ k' * m'.
Proof.
  intros Hp Hk Hm Heq. apply Hm.
  assert (Hpk : 0 < p ^ k) by (apply Z.pow_pos_nonneg; lia).
  replace k' with (k + Z.succ (k' - k - 1)) in Heq by lia.
  rewrite Z.pow_add_r, Z.pow_succ_r, <- !Z.mul_assoc in Heq by lia.
  apply Z.mul_reg_l in Heq; [|lia].
  exists (p ^ (k' - k - 1) * m'). rewrite Heq. ring.
Qed.

Lemma nodup_divisor_values (fs : list (Z * Z)) :
  Forall (fun pe => Z.prime (fst pe) /\ 0 <= snd pe) fs ->
  StronglySorted Z.lt (map fst fs) ->
  NoDup (divisor_values fs).
Proof.
  induction 1 as [|[p e] fs [Hp He] Hfs IH]; intros Hsorted; cbn [fst snd] in *.
  - rewrite divisor_values_nil. repeat constructor. intros [].
  - pose proof (Z.prime_ge_2 p Hp) as Hp2.
    cbn [map fst] in Hsorted. apply StronglySorted_inv in Hsorted.
    destruct Hsorted as [Hsorted Hlt].
    assert (HpM : ~ (p | factorization_product fs)).
    { apply prime_not_divide_product; [assumption|].
      rewrite Forall_forall in *. intros pe Hpe.
      destruct (Hfs pe Hpe) as [Hq Hqe].
      assert (p < fst pe) by (apply Hlt, in_map, Hpe).
      split; [exact Hq | split; [exact Hqe | lia]]. }
    assert (Hcof : forall m, In m (divisor_values fs) -> ~ (p | m)).
    { intros m Hm Hpm. apply in_divisor_values in Hm; [|assumption].
      apply HpM. now apply Z.divide_trans with m. }
    rewrite divisor_values_cons. apply nodup_flat_map.
    + apply nodup_range.
    + intros k Hk. apply in_range in Hk.
      apply NoDup_map_NoDup_ForallPairs; [|now apply IH].
      intros m m' _ _ Heq.
      assert (Hpk : 0 < p ^ k) by (apply Z.pow_pos_nonneg; lia).
      apply Z.mul_reg_l in Heq; [assumption | lia].
    + intros k k' z Hk Hk' Hne Hz Hz'.
      apply in_range in Hk, Hk'.
      apply in_map_iff in Hz, Hz'.
      destruct Hz as (m & <- & Hm). destruct Hz' as (m' & Heq & Hm').
      destruct (Z.lt_trichotomy k k') as [Hlt' | [-> | Hgt]]; [| contradiction |].
      * apply (prime_power_cofactor p k k' m m'); auto; lia.
      * apply (prime_power_cofactor p k' k m' m); auto; lia.
Qed.

(** ** [factors] on [|n| > 1] *)

Lemma factors_unfold (n : Z) (fs : list (Z * Z)) :
  factor n = Ok fs -> fs <> [] ->
  factors n = Ok (sorted (divisor_values fs)).
Proof.
  intros Hfs Hne. unfold factors. rewrite Hfs. cbn [bind].
  destruct fs as [|pe fs]; [contradiction|]. reflexivity.
Qed.

Lemma factors_spec (n : Z) :
  1 < Z.abs n ->
  exists (fs : list (Z * Z)) (ds : list Z),
    factor n = Ok fs /\ factors n = Ok ds /\
    StronglySorted Z.lt ds /\
    (forall d : Z, In d ds <-> 0 < d /\ (d | Z.abs n)) /\
    Z.of_nat (length ds) = divisor_count fs.
Proof.
  intros Hn. destruct (factor_spec n Hn) as (fs & Hfs & Hall & Hsorted & Hprod).
  assert (Hne : fs <> []).
  { intros ->. cbn in Hprod. lia. }
  assert (Hall' : Forall (fun pe => Z.prime (fst pe) /\ 0 <= snd pe) fs).
  { eapply Forall_impl; [|exact Hall]. cbn. intros pe (Hp & He & _). split; [exact Hp | lia]. }
  exists fs, (sorted (divisor_values fs)).
  split; [assumption|]. split; [now apply factors_unfold|].
  pose proof (sorted_perm (divisor_values fs)) as Hperm.
  split; [|split].
  - apply ascending_nodup_strict; [apply sorted_ascending|].
    apply (Permutation_NoDup Hperm). now apply nodup_divisor_values.
  - intros d. rewrite <- Hprod, <- (in_divisor_values fs Hall' d).
    split; intros Hd.
    + now apply (Permutation_in d (Permutation_sym Hperm)).
    + now apply (Permutation_in d Hperm).
  - rewrite <- (Permutation_length Hperm). apply length_divisor_values.
    eapply Forall_impl; [|exact Hall']. cbn. tauto.
Qed.

(** C6.  For [|n| > 1], [factors(n)] returns the strictly ascending list of
    all positive divisors of [|n|], and its length is the product of
    [exponent + 1] over [factor(n)]. *)
Theorem C6_factors_spec (n : Z) :
  1 < Z.abs n ->
  exists (fs : list (Z * Z)) (ds : list Z),
    factor n = Ok fs /\ factors n = Ok ds /\
    StronglySorted Z.lt ds /\
    (forall d : Z, In d ds <-> 0 < d /\ (d | Z.abs n)) /\
    Z.of_nat (length ds) = divisor_count fs.
Proof. apply factors_spec. Qed.

Lemma C6_factors_witness :
  1 < Z.abs (-30) /\
  exists (fs : list (Z * Z)) (ds : list Z),
    factor (-30) = Ok fs /\ factors (-30) = Ok ds /\
    StronglySorted Z.lt ds /\
    (forall d : Z, In d ds <-> 0 < d /\ (d | Z.abs (-30))) /\
    Z.of_nat (length ds) = divisor_count fs.
Proof.
  split.
  - cbn. lia.
  - apply (C6_factors_spec (-30)). cbn. lia.
Defined.

(** ** [convolution_coeff] on [val > 1] *)

Lemma conv_loop_fold (val : Z) (fun1 fun2 : Z -> Z) (ds : list Z) :
  Forall (fun d => d <> 0) ds ->
  forall ret : Z,
    conv_loop val fun1 fun2 ds ret
    = Ok (fold_left (fun acc d => acc + fun1 d * fun2 (val / d)) ds ret).
Proof.
  induction 1 as [|d ds Hd Hds IH]; intros ret; cbn [conv_loop fold_left]; [reflexivity|].
  unfold pydiv. destruct (Z.eqb_spec d 0) as [|_]; [contradiction|].
  cbn [bind]. apply IH.
Qed.

(** For [val > 1] the coefficient is the sum of [fun1(d) * fun2(val // d)]
    accumulated over the ascending list of all positive divisors of [val]. *)
Lemma convolution_coeff_spec (val : Z) (fun1 fun2 : Z -> Z) :
  1 < val ->
  exists ds : list Z,
    StronglySorted Z.lt ds /\
    (forall d : Z, In d ds <-> 0 < d /\ (d | val)) /\
    convolution_coeff val fun1 fun2
    = Ok (fold_left (fun acc d => acc + fun1 d * fun2 (val / d)) ds 0).
Proof.
  intros Hval.
  destruct (factors_spec val ltac:(lia)) as (fs & ds & _ & Hds & Hsorted & Hin & _).
  rewrite Z.abs_eq in Hin by lia.
  exists ds. split; [assumption|]. split; [assumption|].
  unfold convolution_coeff. rewrite Hds. cbn [bind].
  apply conv_loop_fold. apply Forall_forall. intros d Hd.
  apply Hin in Hd. lia.
Qed.

(** ** Further properties of [gcd] *)

(** X1.  [gcd] returns on every pair of integers, and its result is the
    greatest common divisor up to sign: its absolute value is the gcd and it
    divides both arguments. *)
Theorem X1_gcd_total_up_to_sign (a b : Z) :
  exists g : Z, gcd a b = Ok g /\ Z.abs g = Z.gcd a b /\ (g | a) /\ (g | b).
Proof.
  destruct (Z.eq_dec a 0) as [-> | Ha].
  - exists b. rewrite gcd_zero_l.
    split; [reflexivity|]. split; [symmetry; apply Z.gcd_0_l|].
    split; [apply Z.divide_0_r | apply Z.divide_refl].
  - destruct (Z.eq_dec b 0) as [-> | Hb].
    + exists a. rewrite gcd_zero_r.
      split; [reflexivity|]. split; [symmetry; apply Z.gcd_0_r|].
      split; [apply Z.divide_refl | apply Z.divide_0_r].
    + exists (Z.gcd a b). rewrite gcd_nonzero by assumption.
      split; [reflexivity|]. split; [apply Z.abs_eq, Z.gcd_nonneg|].
      split; [apply Z.gcd_divide_l | apply Z.gcd_divide_r].
Qed.

(** X2.  On non-zero arguments of any sign [gcd] returns the positive
    greatest common divisor: it divides both and no common divisor is
    larger. *)
Theorem X2_gcd_nonzero_greatest (a b : Z) :
  a <> 0 -> b <> 0 ->
  exists g : Z,
    gcd a b = Ok g /\ 0 < g /\ (g | a) /\ (g | b) /\
    forall d : Z, (d | a) -> (d | b) -> d <= g.
Proof.
  intros Ha Hb. exists (Z.gcd a b). rewrite gcd_nonzero by assumption.
  assert (Hpos : 0 < Z.gcd a b).
  { pose proof (Z.gcd_nonneg a b).
    destruct (Z.eq_dec (Z.gcd a b) 0) as [E | E]; [|lia].
    apply Z.gcd_eq_0_l in E. contradiction. }
  split; [reflexivity|]. split; [assumption|].
  split; [apply Z.gcd_divide_l|]. split; [apply Z.gcd_divide_r|].
  intros d Hda Hdb. apply Z.divide_pos_le; [assumption|].
  now apply Z.gcd_greatest.
Qed.

Lemma X2_gcd_nonzero_witness :
  -1001 <> 0 /\ 26 <> 0 /\
  exists g : Z,
    gcd (-1001) 26 = Ok g /\ 0 < g /\ (g | -1001) /\ (g | 26) /\
    forall d : Z, (d | -1001) -> (d | 26) -> d <= g.
Proof.
  split; [lia|]. split; [lia|].
  apply (X2_gcd_nonzero_greatest (-1001) 26); lia.
Defined.

(** ** Further properties of [smallest_prime_divisor] *)

Lemma least_divisor_le_prime (n p q : Z) :
  least_divisor n p -> Z.prime q -> (q | n) -> p <= q.
Proof.
  intros (Hp1 & Hpd & Hmin) Hq Hqd.
  pose proof (Z.prime_ge_2 q Hq).
  destruct (Z_lt_le_dec q p) as [Hlt | Hle]; [|assumption].
  exfalso. apply (Hmin q); [lia | assumption].
Qed.

(** X3.  Called without a bound on [num >= 2], [smallest_prime_divisor]
    returns a prime that divides [num] and is at most every prime divisor of
    [num]. *)
Theorem X3_spd_unbounded_least_prime (num : Z) :
  2 <= num ->
  exists p : Z,
    smallest_prime_divisor num None = Ok p /\
    Z.prime p /\ (p | num) /\
    forall q : Z, Z.prime q -> (q | num) -> p <= q.
Proof.
  intros Hn. destruct (spd_unbounded num Hn) as (p & Hp & Hld).
  exists p. split; [assumption|]. split; [now apply (least_divisor_prime num)|].
  split; [apply Hld|]. intros q. now apply least_divisor_le_prime.
Qed.

Lemma X3_spd_unbounded_witness :
  2 <= 1001 /\
  exists p : Z,
    smallest_prime_divisor 1001 None = Ok p /\
    Z.prime p /\ (p | 1001) /\
    forall q : Z, Z.prime q -> (q | 1001) -> p <= q.
Proof.
  split; [lia|]. apply (X3_spd_unbounded_least_prime 1001). lia.
Defined.

(** X4.  With a bound [b] and [num >= 2] whose least divisor above 1 is
    [p]: the result is [p] when [p] is 2, 3 or 5 (whatever the bound) or
    when [p <= b], and [num] otherwise. *)
Theorem X4_spd_bounded_characterisation (num b p : Z) :
  2 <= num -> least_divisor num p ->
  smallest_prime_divisor num (Some b)
  = Ok (if (p <=? 5) || (p <=? b) then p else num).
Proof. apply spd_bounded. Qed.

Lemma least_divisor_77 : least_divisor 77 7.
Proof.
  split; [lia|]. split; [exists 11; reflexivity|].
  intros e He Hd.
  assert (E : 77 mod e = 0) by (apply Z.mod_divide; [lia | assumption]).
  assert (Hc : e = 2 \/ e = 3 \/ e = 4 \/ e = 5 \/ e = 6) by lia.
  destruct Hc as [-> | [-> | [-> | [-> | ->]]]]; discriminate E.
Qed.

Lemma X4_spd_bounded_witness :
  2 <= 77 /\ least_divisor 77 7 /\
  smallest_prime_divisor 77 (Some 6)
  = Ok (if (7 <=? 5) || (7 <=? 6) then 7 else 77).
Proof.
  split; [lia|]. split; [apply least_divisor_77|].
  apply (X4_spd_bounded_characterisation 77 6 7); [lia | apply least_divisor_77].
Defined.

(** X5.  For [num >= 2], [smallest_prime_divisor(num)] without a bound
    returns [num] itself exactly when [num] is prime. *)
Theorem X5_spd_returns_num_iff_prime (num : Z) :
  2 <= num ->
  (smallest_prime_divisor num None = Ok num <-> Z.prime num).
Proof.
  intros Hn. destruct (spd_unbounded num Hn) as (p & Hp & Hld).
  rewrite Hp. split.
  - intros E. injection E as ->. now apply (least_divisor_prime num).
  - intros Hprime. f_equal.
    destruct Hld as (Hp1 & Hpd & _).
    destruct Hprime as [_ Hnone].
    destruct (Z.eq_dec p num) as [|Hne]; [assumption|]. exfalso.
    apply (Hnone p); [|assumption].
    assert (p <= num) by (apply Z.divide_pos_le; [lia | assumption]). lia.
Qed.

Lemma X5_spd_prime_witness :
  2 <= 97 /\ (smallest_prime_divisor 97 None = Ok 97 <-> Z.prime 97).
Proof.
  split; [lia|]. apply (X5_spd_returns_num_iff_prime 97). lia.
Defined.

(** X6.  For [num >= 1] and any bound, given or omitted, the value returned
    by [smallest_prime_divisor] lies in [1 .. num] and divides [num]; it is
    above 1 when [num] is. *)
Theorem X6_spd_result_divides (num : Z) (bound : option Z) :
  1 <= num ->
  exists r : Z,
    smallest_prime_divisor num bound = Ok r /\
    1 <= r <= num /\ (r | num) /\ (1 < num -> 1 < r).
Proof.
  intros Hn. destruct (Z.eq_dec num 1) as [-> | Hne].
  - exists 1. repeat split; try lia. apply Z.divide_refl.
  - destruct (spd_unbounded num ltac:(lia)) as (p & Hp & Hld).
    pose proof (least_divisor_le num p ltac:(lia) Hld) as Hle.
    destruct Hld as (Hp1 & Hpd & Hmin).
    destruct bound as [b|].
    + rewrite (spd_bounded num b p) by (lia || (repeat split; assumption)).
      destruct ((p <=? 5) || (p <=? b)).
      * exists p. repeat split; (lia || assumption).
      * exists num. repeat split; try lia. apply Z.divide_refl.
    + exists p. repeat split; (lia || assumption).
Qed.

Lemma X6_spd_result_witness :
  1 <= 221 /\
  exists r : Z,
    smallest_prime_divisor 221 (Some 10) = Ok r /\
    1 <= r <= 221 /\ (r | 221) /\ (1 < 221 -> 1 < r).
Proof.
  split; [lia|]. apply (X6_spd_result_divides 221 (Some 10)). lia.
Defined.

(** X7.  A bound of at least [num] changes nothing:
    [smallest_prime_divisor(num, b)] with [num <= b] equals
    [smallest_prime_divisor(num)], error case included. *)
Theorem X7_spd_large_bound (num b : Z) :
  num <= b ->
  smallest_prime_divisor num (Some b) = smallest_prime_divisor num None.
Proof.
  intros Hb. destruct (Z_lt_le_dec num 2) as [Hlt | Hge].
  - unfold smallest_prime_divisor.
    destruct (Z.ltb_spec num 1); [reflexivity|].
    destruct (Z.eqb_spec num 1); [reflexivity | lia].
  - destruct (spd_unbounded num Hge) as (p & Hp & Hld).
    rewrite Hp, (spd_bounded num b p Hge Hld).
    pose proof (least_divisor_le num p ltac:(lia) Hld).
    destruct (Z.leb_spec p b); [now rewrite orb_true_r | lia].
Qed.

Lemma X7_spd_large_bound_witness :
  91 <= 100 /\
  smallest_prime_divisor 91 (Some 100) = smallest_prime_divisor 91 None.
Proof.
  split; [lia|]. apply (X7_spd_large_bound 91 100). lia.
Defined.

(** ** Further properties of [factor] *)

Lemma factor_abs (n : Z) : factor (Z.abs n) = factor n.
Proof.
  destruct (Z_le_gt_dec (Z.abs n) 1) as [Hle | Hgt].
  - assert (H : n = -1 \/ n = 0 \/ n = 1) by lia.
    destruct H as [-> | [-> | ->]]; reflexivity.
  - unfold factor.
    assert (Hex : forall m, 1 < Z.abs m -> existsb (Z.eqb m) [-1; 0; 1] = false).
    { intros m Hm. cbn. destruct (Z.eqb_spec m (-1)); [lia|].
      destruct (Z.eqb_spec m 0); [lia|]. destruct (Z.eqb_spec m 1); [lia | reflexivity]. }
    rewrite !Hex by lia.
    destruct (Z.ltb_spec (Z.abs n) 0); [lia|].
    destruct (Z.ltb_spec n 0).
    + now rewrite Z.abs_neq by lia.
    + now rewrite Z.abs_eq by lia.
Qed.

(** X8.  [factor] ignores the sign of its argument. *)
Theorem X8_factor_ignores_sign (n : Z) : factor (- n) = factor n.
Proof. now rewrite <- (factor_abs (- n)), Z.abs_opp, factor_abs. Qed.

Lemma factorization_of_well_formed (n : Z) (fs : list (Z * Z)) :
  factorization_of n fs -> well_formed fs.
Proof.
  intros (Hall & Hsorted & _). split; [|assumption].
  eapply Forall_impl; [|exact Hall]. cbn. tauto.
Qed.

Lemma well_formed_inv (pe : Z * Z) (fs : list (Z * Z)) :
  well_formed (pe :: fs) ->
  Z.prime (fst pe) /\ 1 <= snd pe /\ well_formed fs /\
  Forall (fun qe => fst pe < fst qe) fs.
Proof.
  intros [Hall Hsorted]. inversion Hall as [|? ? [Hp He] Hall']; subst.
  cbn [map] in Hsorted. apply StronglySorted_inv in Hsorted.
  destruct Hsorted as [Hsorted Hlt].
  split; [assumption|]. split; [assumption|]. split; [now split|].
  rewrite Forall_forall in *. intros qe Hqe. apply Hlt. now apply in_map.
Qed.

Lemma well_formed_weaken (fs : list (Z * Z)) :
  well_formed fs -> Forall (fun pe => Z.prime (fst pe) /\ 0 <= snd pe) fs.
Proof.
  intros [Hall _]. eapply Forall_impl; [|exact Hall]. cbn. intros pe [Hp He].
  split; [exact Hp | lia].
Qed.

Lemma factorization_product_pos (fs : list (Z * Z)) :
  well_formed fs -> 1 <= factorization_product fs.
Proof.
  induction fs as [|pe fs IH]; intros Hwf; [cbn; lia|].
  apply well_formed_inv in Hwf. destruct Hwf as (Hp & He & Hwf & _).
  cbn [factorization_product fold_right]. fold (factorization_product fs).
  pose proof (Z.prime_ge_2 _ Hp).
  assert (0 < fst pe ^ snd pe) by (apply Z.pow_pos_nonneg; lia).
  specialize (IH Hwf). nia.
Qed.

Lemma factorization_product_cons_gt (pe : Z * Z) (fs : list (Z * Z)) :
  well_formed (pe :: fs) -> 1 < factorization_product (pe :: fs).
Proof.
  intros Hwf. pose proof Hwf as Hwf'.
  apply well_formed_inv in Hwf. destruct Hwf as (Hp & He & Hwf & _).
  cbn [factorization_product fold_right]. fold (factorization_product fs).
  pose proof (Z.prime_ge_2 _ Hp).
  pose proof (factorization_product_pos fs Hwf).
  assert (fst pe ^ 1 <= fst pe ^ snd pe) by (apply Z.pow_le_mono_r; lia).
  rewrite Z.pow_1_r in *. nia.
Qed.

Lemma prime_divides_product (p : Z) (fs : list (Z * Z)) :
  Z.prime p -> well_formed fs ->
  (p | factorization_product fs) -> In p (map fst fs).
Proof.
  intros Hp. pose proof (Z.prime_ge_2 p Hp) as Hp2.
  induction fs as [|[q e] fs IH]; intros Hwf Hd.
  - cbn in Hd. apply Z.divide_1_r_nonneg in Hd; lia.
  - apply well_formed_inv in Hwf. cbn [fst snd] in Hwf.
    destruct Hwf as (Hq & He & Hwf & _).
    cbn [factorization_product fold_right fst snd] in Hd.
    fold (factorization_product fs) in Hd.
    apply Z.divide_prime_mul in Hd; [|assumption].
    destruct Hd as [Hd | Hd].
    + left. cbn. symmetry. apply (Z.divide_prime_pp p q e); (assumption || lia).
    + right. now apply IH.
Qed.

Lemma listed_prime_divides_product (p : Z) (fs : list (Z * Z)) :
  well_formed fs -> In p (map fst fs) -> (p | factorization_product fs).
Proof.
  induction fs as [|[q e] fs IH]; intros Hwf Hin; [destruct Hin|].
  apply well_formed_inv in Hwf. cbn [fst snd] in Hwf.
  destruct Hwf as (Hq & He & Hwf & _).
  cbn [factorization_product fold_right fst snd]. fold (factorization_product fs).
  destruct Hin as [<- | Hin].
  - cbn [fst]. apply Z.divide_mul_l.
    exists (q ^ (e - 1)). replace e with (Z.succ (e - 1)) at 1 by lia.
    rewrite Z.pow_succ_r by lia. ring.
  - apply Z.divide_mul_r. now apply IH.
Qed.

(** X9.  For [|n| > 1] the primes listed by [factor(n)] are exactly the
    prime divisors of [|n|]. *)
Theorem X9_factor_lists_prime_divisors (n : Z) :
  1 < Z.abs n ->
  exists fs : list (Z * Z),
    factor n = Ok fs /\
    forall q : Z, In q (map fst fs) <-> Z.prime q /\ (q | Z.abs n).
Proof.
  intros Hn. destruct (factor_spec n Hn) as (fs & Hfs & Hfact).
  pose proof (factorization_of_well_formed _ _ Hfact) as Hwf.
  destruct Hfact as (Hall & _ & Hprod).
  exists fs. split; [assumption|]. intros q. split.
  - intros Hq. split.
    + apply in_map_iff in Hq. destruct Hq as (pe & <- & Hpe).
      rewrite Forall_forall in Hall. apply (Hall pe Hpe).
    + rewrite <- Hprod. now apply listed_prime_divides_product.
  - intros [Hq Hd]. rewrite <- Hprod in Hd. now apply prime_divides_product.
Qed.

Lemma X9_factor_primes_witness :
  1 < Z.abs (-7007) /\
  exists fs : list (Z * Z),
    factor (-7007) = Ok fs /\
    forall q : Z, In q (map fst fs) <-> Z.prime q /\ (q | Z.abs (-7007)).
Proof.
  split; [cbn; lia|]. apply (X9_factor_lists_prime_divisors (-7007)). cbn. lia.
Defined.

Lemma head_prime_not_divide_rest (pe : Z * Z) (fs : list (Z * Z)) :
  well_formed (pe :: fs) -> ~ (fst pe | factorization_product fs).
Proof.
  intros Hwf. apply well_formed_inv in Hwf.
  destruct Hwf as (Hp & _ & Hwf & Hlt).
  apply prime_not_divide_product; [assumption|].
  pose proof (well_formed_weaken fs Hwf) as Hall.
  rewrite Forall_forall in *. intros qe Hqe.
  destruct (Hall qe Hqe) as [Hq He]. specialize (Hlt qe Hqe).
  split; [exact Hq | split; [exact He | lia]].
Qed.

Lemma head_prime_le (pe qe : Z * Z) (fs fs' : list (Z * Z)) :
  well_formed (pe :: fs) -> well_formed (qe :: fs') ->
  factorization_product (pe :: fs) = factorization_product (qe :: fs') ->
  fst qe <= fst pe.
Proof.
  intros Hwf Hwf' Heq.
  assert (Hin : In (fst pe) (map fst (qe :: fs'))).
  { apply prime_divides_product; [apply (well_formed_inv pe fs Hwf) | assumption |].
    rewrite <- Heq. apply listed_prime_divides_product; [assumption | now left]. }
  destruct Hin as [E | Hin]; [cbn in E; lia|].
  apply well_formed_inv in Hwf'. destruct Hwf' as (_ & _ & _ & Hlt).
  apply in_map_iff in Hin. destruct Hin as (re & <- & Hre).
  rewrite Forall_forall in Hlt. specialize (Hlt re Hre). lia.
Qed.

(** A well-formed factorization is determined by its product. *)
Lemma factorization_unique (fs : list (Z * Z)) :
  forall fs' : list (Z * Z),
    well_formed fs -> well_formed fs' ->
    factorization_product fs = factorization_product fs' -> fs = fs'.
Proof.
  induction fs as [|[p e] fs IH]; intros [|[q e'] fs'] Hwf Hwf' Heq.
  - reflexivity.
  - pose proof (factorization_product_cons_gt _ _ Hwf') as Hgt.
    rewrite <- Heq in Hgt. cbn in Hgt. lia.
  - pose proof (factorization_product_cons_gt _ _ Hwf) as Hgt.
    rewrite Heq in Hgt. cbn in Hgt. lia.
  - pose proof (head_prime_le _ _ _ _ Hwf Hwf' Heq) as H1.
    pose proof (head_prime_le _ _ _ _ Hwf' Hwf (eq_sym Heq)) as H2.
    cbn [fst] in H1, H2. assert (q = p) by lia. subst q.
    pose proof (head_prime_not_divide_rest _ _ Hwf) as Hnd.
    pose proof (head_prime_not_divide_rest _ _ Hwf') as Hnd'.
    cbn [fst] in Hnd, Hnd'.
    apply well_formed_inv in Hwf, Hwf'. cbn [fst snd] in Hwf, Hwf'.
    destruct Hwf as (Hp & He & Hwf & _). destruct Hwf' as (_ & He' & Hwf' & _).
    pose proof (Z.prime_ge_2 p Hp) as Hp2.
    cbn [factorization_product fold_right fst snd] in Heq.
    fold (factorization_product fs) in Heq. fold (factorization_product fs') in Heq.
    assert (e = e').
    { destruct (Z.lt_trichotomy e e') as [Hlt | [E | Hgt]]; [| exact E |].
      - exfalso. apply (prime_power_cofactor p e e' _ _ Hp2 ltac:(lia) Hnd Heq).
      - exfalso.
        apply (prime_power_cofactor p e' e _ _ Hp2 ltac:(lia) Hnd' (eq_sym Heq)). }
    subst e'. f_equal. apply IH; try assumption.
    assert (0 < p ^ e) by (apply Z.pow_pos_nonneg; lia).
    apply Z.mul_reg_l in Heq; [assumption | lia].
Qed.

Lemma factor_of_product (fs : list (Z * Z)) :
  well_formed fs -> factor (factorization_product fs) = Ok fs.
Proof.
  intros Hwf. destruct fs as [|pe fs]; [reflexivity|].
  pose proof (factorization_product_cons_gt _ _ Hwf) as Hgt.
  destruct (factor_spec (factorization_product (pe :: fs))) as (fs0 & Hfs0 & Hfact);
    [lia|].
  rewrite Hfs0. f_equal.
  apply factorization_unique; [now apply (factorization_of_well_formed _ _ Hfact) | assumption|].
  destruct Hfact as (_ & _ & ->). apply Z.abs_eq. lia.
Qed.

(** X10.  Round trip: multiplying out a list of prime powers (primes
    strictly increasing, exponents at least 1) and factoring the product
    gives the list back. *)
Theorem X10_factor_product_round_trip (fs : list (Z * Z)) :
  well_formed fs -> factor (factorization_product fs) = Ok fs.
Proof. apply factor_of_product. Qed.

Lemma prime_7 : Z.prime 7.
Proof.
  split; [lia|]. intros n Hn Hd.
  assert (E : 7 mod n = 0) by (apply Z.mod_divide; [lia | assumption]).
  assert (Hc : n = 2 \/ n = 3 \/ n = 4 \/ n = 5 \/ n = 6) by lia.
  destruct Hc as [-> | [-> | [-> | [-> | ->]]]]; discriminate E.
Qed.

Lemma well_formed_2_3_7 : well_formed [(2, 3); (3, 1); (7, 2)].
Proof.
  split.
  - constructor; [split; [apply Z.prime_2 | cbn; lia]|].
    constructor; [split; [apply Z.prime_3 | cbn; lia]|].
    constructor; [split; [apply prime_7 | cbn; lia]|]. constructor.
  - cbn. repeat constructor; lia.
Qed.

Lemma X10_factor_round_trip_witness :
  well_formed [(2, 3); (3, 1); (7, 2)] /\
  factor (factorization_product [(2, 3); (3, 1); (7, 2)])
  = Ok [(2, 3); (3, 1); (7, 2)].
Proof.
  split; [apply well_formed_2_3_7|].
  apply (X10_factor_product_round_trip [(2, 3); (3, 1); (7, 2)]).
  apply well_formed_2_3_7.
Defined.

(** X11.  The result of [factor] is the only well-formed factorization of
    [|n|]: any list of prime powers with strictly increasing primes and
    exponents at least 1 whose product is [|n|] is what [factor(n)]
    returns. *)
Theorem X11_factor_unique (n : Z) (fs : list (Z * Z)) :
  well_formed fs -> factorization_product fs = Z.abs n -> factor n = Ok fs.
Proof.
  intros Hwf Hprod. now rewrite <- factor_abs, <- Hprod, factor_of_product.
Qed.

Lemma X11_factor_unique_witness :
  well_formed [(2, 3); (3, 1); (7, 2)] /\
  factorization_product [(2, 3); (3, 1); (7, 2)] = Z.abs (-1176) /\
  factor (-1176) = Ok [(2, 3); (3, 1); (7, 2)].
Proof.
  split; [apply well_formed_2_3_7|]. split; [reflexivity|].
  apply (X11_factor_unique (-1176)); [apply well_formed_2_3_7 | reflexivity].
Defined.

(** X12.  A prime power factors into a single pair:
    [factor(p ** k) == [(p, k)]] for prime [p] and [k >= 1]. *)
Theorem X12_factor_prime_power (p k : Z) :
  Z.prime p -> 1 <= k -> factor (p ^ k) = Ok [(p, k)].
Proof.
  intros Hp Hk.
  replace (p ^ k) with (factorization_product [(p, k)]) by (cbn; lia).
  apply factor_of_product. split.
  - constructor; [split; assumption | constructor].
  - cbn. repeat constructor.
Qed.

Lemma X12_factor_prime_power_witness :
  Z.prime 3 /\ 1 <= 4 /\ factor (3 ^ 4) = Ok [(3, 4)].
Proof.
  split; [apply Z.prime_3|]. split; [lia|].
  apply (X12_factor_prime_power 3 4); [apply Z.prime_3 | lia].
Defined.

(** ** Further properties of [factors] *)

(** X13.  [factors] ignores the sign of its argument. *)
Theorem X13_factors_ignores_sign (n : Z) : factors (- n) = factors n.
Proof.
  unfold factors. now rewrite <- (factor_abs (- n)), Z.abs_opp, factor_abs.
Qed.

Lemma sorted_last_max (l : list Z) :
  StronglySorted Z.lt l -> forall x d : Z, In x l -> x <= last l d.
Proof.
  induction 1 as [|y l Hl IH Hy]; intros x d Hx; [destruct Hx|].
  destruct l as [|z l].
  - destruct Hx as [<- | []]. cbn. lia.
  - change (last (y :: z :: l) d) with (last (z :: l) d).
    destruct Hx as [<- | Hx]; [|now apply IH].
    rewrite Forall_forall in Hy.
    assert (y < z) by (apply Hy; now left).
    assert (z <= last (z :: l) d) by (apply IH; now left). lia.
Qed.

Lemma last_in (l : list Z) (d : Z) : l <> [] -> In (last l d) l.
Proof.
  induction l as [|x l IH]; intros Hne; [contradiction|].
  destruct l as [|y l]; [now left|].
  right. apply IH. discriminate.
Qed.

(** The divisor list starts at 1 and ends at [|n|]. *)
Lemma factors_head_last (n : Z) :
  1 < Z.abs n ->
  exists ds : list Z,
    factors n = Ok (1 :: ds) /\ last (1 :: ds) 0 = Z.abs n /\
    Forall (fun d => 1 < d) ds.
Proof.
  intros Hn.
  destruct (factors_spec n Hn) as (fs & ds & _ & Hds & Hsorted & Hin & _).
  assert (H1 : In 1 ds) by (apply Hin; split; [lia | apply Z.divide_1_l]).
  assert (Hn' : In (Z.abs n) ds) by (apply Hin; split; [lia | apply Z.divide_refl]).
  destruct ds as [|x ds]; [destruct H1|].
  assert (Hx : 0 < x) by (apply Hin; now left).
  pose proof (StronglySorted_inv Hsorted) as [Hsorted' Hlt].
  rewrite Forall_forall in Hlt.
  assert (Ex : x = 1).
  { destruct H1 as [E | H1]; [exact E|]. apply Hlt in H1. lia. }
  subst x. exists ds. split; [exact Hds|]. split.
  - pose proof (sorted_last_max _ Hsorted _ 0 Hn') as Hle.
    assert (Hl : In (last (1 :: ds) 0) (1 :: ds)) by (apply last_in; discriminate).
    apply Hin in Hl. destruct Hl as [Hpos Hdiv].
    apply Z.divide_pos_le in Hdiv; lia.
  - apply Forall_forall. exact Hlt.
Qed.

(** X14.  For [|n| > 1] the list returned by [factors] starts with 1, ends
    with [|n|], and every other entry lies strictly between. *)
Theorem X14_factors_first_and_last (n : Z) :
  1 < Z.abs n ->
  exists ds : list Z,
    factors n = Ok (1 :: ds) /\ last (1 :: ds) 0 = Z.abs n /\
    Forall (fun d => 1 < d <= Z.abs n) ds.
Proof.
  intros Hn. destruct (factors_head_last n Hn) as (ds & Hds & Hlast & Hgt).
  exists ds. split; [exact Hds|]. split; [exact Hlast|].
  destruct (factors_spec n Hn) as (_ & ds' & _ & Hds' & _ & Hin & _).
  rewrite Hds in Hds'. injection Hds' as <-.
  rewrite Forall_forall in *. intros d Hd. split; [now apply Hgt|].
  assert (Hd' : In d (1 :: ds)) by now right.
  apply Hin in Hd'. destruct Hd' as [Hpos Hdiv].
  apply Z.divide_pos_le in Hdiv; lia.
Qed.

Lemma X14_factors_first_and_last_witness :
  1 < Z.abs (-12) /\
  exists ds : list Z,
    factors (-12) = Ok (1 :: ds) /\ last (1 :: ds) 0 = Z.abs (-12) /\
    Forall (fun d => 1 < d <= Z.abs (-12)) ds.
Proof.
  split; [cbn; lia|].
  apply (X14_factors_first_and_last (-12)). cbn. lia.
Defined.

Lemma factors_of_prime (p : Z) : Z.prime p -> factors p = Ok [1; p].
Proof.
  intros Hp. pose proof (Z.prime_ge_2 p Hp) as Hp2.
  assert (Hf : factor p = Ok [(p, 1)]).
  { replace p with (factorization_product [(p, 1)]) at 1 by (cbn; lia).
    apply factor_of_product. split.
    - constructor; [split; [assumption | cbn; lia] | constructor].
    - cbn. repeat constructor. }
  rewrite (factors_unfold p _ Hf) by discriminate.
  rewrite divisor_values_cons, divisor_values_nil.
  change (range (1 + 1)) with [0; 1]. cbn [flat_map map app].
  rewrite Z.pow_0_r, Z.pow_1_r, !Z.mul_1_r.
  cbn [sorted fold_right insert_sorted].
  destruct (Z.leb_spec 1 p); [reflexivity | lia].
Qed.

(** X15.  For [n > 1], [factors(n)] is [[1, n]] exactly when [n] is prime. *)
Theorem X15_factors_prime_iff (n : Z) :
  1 < n -> (factors n = Ok [1; n] <-> Z.prime n).
Proof.
  intros Hn. split.
  - intros Hds.
    destruct (factors_spec n ltac:(lia)) as (_ & ds & _ & Hds' & _ & Hin & _).
    rewrite Hds in Hds'. injection Hds' as <-.
    rewrite Z.abs_eq in Hin by lia.
    split; [assumption|]. intros d Hd Hdiv.
    assert (Hd' : In d [1; n]) by (apply Hin; split; [lia | assumption]).
    cbn in Hd'. lia.
  - apply factors_of_prime.
Qed.

Lemma X15_factors_prime_witness :
  1 < 7 /\ (factors 7 = Ok [1; 7] <-> Z.prime 7).
Proof.
  split; [lia|]. apply (X15_factors_prime_iff 7). lia.
Defined.

(** Strictly ascending lists with the same elements are equal. *)
Lemma sorted_lt_ext (l1 : list Z) :
  forall l2 : list Z,
    StronglySorted Z.lt l1 -> StronglySorted Z.lt l2 ->
    (forall x : Z, In x l1 <-> In x l2) -> l1 = l2.
Proof.
  induction l1 as [|x l1 IH]; intros [|y l2] H1 H2 Hin.
  - reflexivity.
  - exfalso. apply (proj2 (Hin y)). now left.
  - exfalso. apply (proj1 (Hin x)). now left.
  - apply StronglySorted_inv in H1, H2.
    destruct H1 as [H1 Hx], H2 as [H2 Hy].
    rewrite Forall_forall in Hx, Hy.
    assert (Exy : x = y).
    { destruct (proj1 (Hin x) (or_introl eq_refl)) as [E | Hx2]; [now symmetry|].
      destruct (proj2 (Hin y) (or_introl eq_refl)) as [E | Hy1]; [assumption|].
      apply Hx in Hy1. apply Hy in Hx2. lia. }
    subst y. f_equal. apply IH; [assumption | assumption|].
    intros z. split; intros Hz.
    + destruct (proj1 (Hin z) (or_intror Hz)) as [E | Hz2]; [|assumption].
      apply Hx in Hz. lia.
    + destruct (proj2 (Hin z) (or_intror Hz)) as [E | Hz1]; [|assumption].
      apply Hy in Hz. lia.
Qed.

Lemma sorted_app (l1 l2 : list Z) :
  StronglySorted Z.lt l1 -> StronglySorted Z.lt l2 ->
  (forall x y : Z, In x l1 -> In y l2 -> x < y) ->
  StronglySorted Z.lt (l1 ++ l2).
Proof.
  induction 1 as [|x l1 H1 IH Hx]; intros H2 Hlt; [assumption|].
  cbn. constructor.
  - apply IH; [assumption|]. intros y z Hy Hz. apply Hlt; [now right | assumption].
  - apply Forall_app. split; [assumption|].
    apply Forall_forall. intros z Hz. apply Hlt; [now left | assumption].
Qed.

(** An order-reversing map turns an ascending list into one whose reverse
    is ascending. *)
Lemma sorted_rev_map (f : Z -> Z) (l : list Z) :
  StronglySorted Z.lt l ->
  (forall x y : Z, In x l -> In y l -> x < y -> f y < f x) ->
  StronglySorted Z.lt (rev (map f l)).
Proof.
  induction 1 as [|x l Hl IH Hx]; intros Hanti; [constructor|].
  cbn [map rev]. apply sorted_app.
  - apply IH. intros y z Hy Hz. apply Hanti; now right.
  - repeat constructor.
  - intros y z Hy [<- | []]. apply in_rev, in_map_iff in Hy.
    destruct Hy as (d & <- & Hd).
    rewrite Forall_forall in Hx.
    apply Hanti; [now left | now right | now apply Hx].
Qed.

Lemma div_divisor (n d : Z) :
  0 < n -> 0 < d -> (d | n) ->
  0 < n / d /\ (n / d | n) /\ n / (n / d) = d /\ n = d * (n / d).
Proof.
  intros Hn Hd [c Hc]. subst n.
  rewrite Z.div_mul by lia.
  assert (Hcpos : 0 < c) by nia.
  split; [assumption|]. split; [exists d; ring|].
  split; [|ring].
  rewrite Z.mul_comm. apply Z.div_mul. lia.
Qed.

(** The divisor list read backwards is the list of cofactors. *)
Lemma cofactors_rev (n : Z) (ds : list Z) :
  0 < n -> StronglySorted Z.lt ds ->
  (forall d : Z, In d ds <-> 0 < d /\ (d | n)) ->
  map (fun d => n / d) ds = rev ds.
Proof.
  intros Hn Hsorted Hin.
  rewrite <- (rev_involutive (map _ ds)). f_equal.
  apply sorted_lt_ext; [|assumption|].
  - apply sorted_rev_map; [assumption|].
    intros x y Hx Hy Hxy. apply Hin in Hx, Hy.
    destruct Hx as [Hx Hxd], Hy as [Hy Hyd].
    destruct (div_divisor n x Hn Hx Hxd) as (Hqx & _ & _ & Ex).
    destruct (div_divisor n y Hn Hy Hyd) as (Hqy & _ & _ & Ey).
    nia.
  - intros x. rewrite <- in_rev, in_map_iff. split.
    + intros (d & <- & Hd). apply Hin in Hd. destruct Hd as [Hd Hdiv].
      apply Hin. destruct (div_divisor n d Hn Hd Hdiv) as (H1 & H2 & _). now split.
    + intros Hx. apply Hin in Hx. destruct Hx as [Hx Hdiv].
      destruct (div_divisor n x Hn Hx Hdiv) as (H1 & H2 & H3 & _).
      exists (n / x). split; [assumption|]. apply Hin. now split.
Qed.

(** X16.  For [n > 1], [factors(n)] returns a list that is symmetric:
    dividing [n] by each entry gives the list reversed. *)
Theorem X16_factors_cofactors_reverse (n : Z) :
  1 < n ->
  exists ds : list Z,
    factors n = Ok ds /\ map (fun d => n / d) ds = rev ds.
Proof.
  intros Hn.
  destruct (factors_spec n ltac:(lia)) as (_ & ds & _ & Hds & Hsorted & Hin & _).
  rewrite Z.abs_eq in Hin by lia.
  exists ds. split; [exact Hds|].
  apply cofactors_rev; (lia || assumption).
Qed.

Lemma X16_factors_cofactors_witness :
  1 < 12 /\
  exists ds : list Z,
    factors 12 = Ok ds /\ map (fun d => 12 / d) ds = rev ds.
Proof.
  split; [lia|]. apply (X16_factors_cofactors_reverse 12). lia.
Defined.

(** ** Further properties of [convolution_coeff] *)

Lemma fold_left_sum (F : Z -> Z) (l : list Z) :
  forall a : Z,
    fold_left (fun acc d => acc + F d) l a = a + sum_of (map F l).
Proof.
  induction l as [|x l IH]; intros a; cbn [fold_left map sum_of fold_right]; [lia|].
  rewrite IH. unfold sum_of. lia.
Qed.

Lemma convolution_coeff_sum (val : Z) (fun1 fun2 : Z -> Z) :
  1 < Z.abs val ->
  exists ds : list Z,
    factors val = Ok ds /\
    StronglySorted Z.lt ds /\
    (forall d : Z, In d ds <-> 0 < d /\ (d | Z.abs val)) /\
    convolution_coeff val fun1 fun2
    = Ok (sum_of (map (fun d => fun1 d * fun2 (val / d)) ds)).
Proof.
  intros Hval.
  destruct (factors_spec val Hval) as (fs & ds & _ & Hds & Hsorted & Hin & _).
  exists ds. split; [assumption|]. split; [assumption|]. split; [assumption|].
  unfold convolution_coeff. rewrite Hds. cbn [bind].
  rewrite conv_loop_fold.
  - f_equal. apply (fold_left_sum (fun d => fun1 d * fun2 (val / d))).
  - apply Forall_forall. intros d Hd. apply Hin in Hd. lia.
Qed.

(** X17.  For [|val| > 1], [convolution_coeff] returns the sum of
    [fun1(d) * fun2(val // d)] over the positive divisors [d] of [|val|],
    taken in ascending order. *)
Theorem X17_convolution_is_divisor_sum (val : Z) (fun1 fun2 : Z -> Z) :
  1 < Z.abs val ->
  exists ds : list Z,
    StronglySorted Z.lt ds /\
    (forall d : Z, In d ds <-> 0 < d /\ (d | Z.abs val)) /\
    convolution_coeff val fun1 fun2
    = Ok (sum_of (map (fun d => fun1 d * fun2 (val / d)) ds)).
Proof.
  intros Hval.
  destruct (convolution_coeff_sum val fun1 fun2 Hval) as (ds & _ & H).
  now exists ds.
Qed.

Lemma X17_convolution_witness :
  1 < Z.abs 6 /\
  exists ds : list Z,
    StronglySorted Z.lt ds /\
    (forall d : Z, In d ds <-> 0 < d /\ (d | Z.abs 6)) /\
    convolution_coeff 6 (fun x => 2 * x) (fun _ => 1)
    = Ok (sum_of (map (fun d => (fun x => 2 * x) d * (fun _ => 1) (6 / d)) ds)).
Proof.
  split; [cbn; lia|].
  apply (X17_convolution_is_divisor_sum 6 (fun x => 2 * x) (fun _ => 1)).
  cbn. lia.
Defined.

Lemma sum_of_perm (l l' : list Z) : Permutation l l' -> sum_of l = sum_of l'.
Proof.
  unfold sum_of. induction 1; cbn [fold_right]; lia.
Qed.

(** X18.  The convolution is commutative on [val > 1]: both
    [convolution_coeff(val, f, g)] and [convolution_coeff(val, g, f)]
    return, and they return the same value. *)
Theorem X18_convolution_commutative (val : Z) (fun1 fun2 : Z -> Z) :
  1 < val ->
  exists r : Z,
    convolution_coeff val fun1 fun2 = Ok r /\
    convolution_coeff val fun2 fun1 = Ok r.
Proof.
  intros Hval.
  destruct (convolution_coeff_sum val fun1 fun2 ltac:(lia))
    as (ds & Hds & Hsorted & Hin & E1).
  destruct (convolution_coeff_sum val fun2 fun1 ltac:(lia))
    as (ds' & Hds' & _ & _ & E2).
  rewrite Hds in Hds'. injection Hds' as <-.
  rewrite Z.abs_eq in Hin by lia.
  eexists. split; [exact E1|]. rewrite E2. f_equal.
  rewrite (sum_of_perm (map (fun d => fun1 d * fun2 (val / d)) ds)
                       (map (fun d => fun1 d * fun2 (val / d)) (rev ds)))
    by apply Permutation_map, Permutation_rev.
  rewrite <- (cofactors_rev val ds) by (lia || assumption).
  rewrite map_map. f_equal. apply map_ext_in. intros d Hd.
  apply Hin in Hd. destruct Hd as [Hd Hdiv].
  destruct (div_divisor val d ltac:(lia) Hd Hdiv) as (_ & _ & -> & _).
  ring.
Qed.

Lemma X18_convolution_commutative_witness :
  1 < 6 /\
  exists r : Z,
    convolution_coeff 6 (fun x => 2 * x) (fun _ => 1) = Ok r /\
    convolution_coeff 6 (fun _ => 1) (fun x => 2 * x) = Ok r.
Proof.
  split; [lia|].
  apply (X18_convolution_commutative 6 (fun x => 2 * x) (fun _ => 1)). lia.
Defined.

(** X19.  For [val] in [{-1, 0, 1}], [convolution_coeff] raises
    [ValueError] (in [factors], before either function is called); for
    every other [val], and functions that return integers, it returns a
    value. *)
Theorem X19_convolution_raises_iff (val : Z) (fun1 fun2 : Z -> Z) :
  (convolution_coeff val fun1 fun2 = Raise ValueError <-> Z.abs val <= 1) /\
  (1 < Z.abs val -> exists r : Z, convolution_coeff val fun1 fun2 = Ok r).
Proof.
  assert (Hok : 1 < Z.abs val ->
                exists r : Z, convolution_coeff val fun1 fun2 = Ok r).
  { intros Hgt.
    destruct (convolution_coeff_sum val fun1 fun2 Hgt) as (ds & _ & _ & _ & E).
    eexists. exact E. }
  split; [|exact Hok]. split.
  - intros Hraise. destruct (Z_le_gt_dec (Z.abs val) 1) as [Hle | Hgt]; [assumption|].
    destruct (Hok ltac:(lia)) as (r & E). rewrite E in Hraise. discriminate.
  - intros Hle. assert (H : val = -1 \/ val = 0 \/ val = 1) by lia.
    destruct H as [-> | [-> | ->]]; reflexivity.
Qed.

Lemma sum_of_cons (x : Z) (l : list Z) : sum_of (x :: l) = x + sum_of l.
Proof. reflexivity. Qed.

Lemma sum_of_zero (F : Z -> Z) (l : list Z) :
  (forall d : Z, In d l -> F d = 0) -> sum_of (map F l) = 0.
Proof.
  induction l as [|x l IH]; intros H; [reflexivity|].
  cbn [map]. rewrite sum_of_cons.
  rewrite IH by (intros d Hd; apply H; now right).
  rewrite (H x) by now left. reflexivity.
Qed.

(** X20.  The function that is 1 at 1 and 0 elsewhere is a left unit of the
    convolution: for [val > 1] the coefficient is [fun2(val)]. *)
Theorem X20_convolution_unit (val : Z) (fun2 : Z -> Z) :
  1 < val -> convolution_coeff val dirichlet_unit fun2 = Ok (fun2 val).
Proof.
  intros Hval.
  destruct (convolution_coeff_sum val dirichlet_unit fun2 ltac:(lia))
    as (ds & Hds & _ & _ & ->).
  destruct (factors_head_last val ltac:(lia)) as (ds' & Hds' & _ & Hgt).
  rewrite Hds' in Hds. injection Hds as <-.
  cbn [map]. rewrite sum_of_cons, sum_of_zero.
  - rewrite Z.div_1_r. unfold dirichlet_unit. rewrite Z.eqb_refl. f_equal. lia.
  - intros d Hd. rewrite Forall_forall in Hgt. apply Hgt in Hd.
    unfold dirichlet_unit. destruct (Z.eqb_spec d 1); lia.
Qed.

Lemma X20_convolution_unit_witness :
  1 < 12 /\ convolution_coeff 12 dirichlet_unit (fun x => x * x) = Ok (12 * 12).
Proof.
  split; [lia|].
  apply (X20_convolution_unit 12 (fun x => x * x)). lia.
Defined.

Lemma sum_of_ones (l : list Z) :
  sum_of (map (fun _ => 1 * 1) l) = Z.of_nat (length l).
Proof.
  induction l as [|x l IH]; [reflexivity|].
  cbn [map length]. rewrite sum_of_cons, IH. lia.
Qed.

(** X21.  With both functions constantly 1 the coefficient counts the
    divisors: for [|val| > 1] it is the product of [exponent + 1] over
    [factor(val)]. *)
Theorem X21_convolution_counts_divisors (val : Z) :
  1 < Z.abs val ->
  exists fs : list (Z * Z),
    factor val = Ok fs /\
    convolution_coeff val (fun _ => 1) (fun _ => 1) = Ok (divisor_count fs).
Proof.
  intros Hval.
  destruct (factors_spec val Hval) as (fs & ds & Hfs & Hds & _ & _ & Hlen).
  destruct (convolution_coeff_sum val (fun _ => 1) (fun _ => 1) Hval)
    as (ds' & Hds' & _ & _ & ->).
  rewrite Hds in Hds'. injection Hds' as <-.
  exists fs. split; [assumption|]. f_equal.
  rewrite <- Hlen. apply sum_of_ones.
Qed.

Lemma X21_convolution_counts_witness :
  1 < Z.abs 12 /\
  exists fs : list (Z * Z),
    factor 12 = Ok fs /\
    convolution_coeff 12 (fun _ => 1) (fun _ => 1) = Ok (divisor_count fs).
Proof.
  split; [cbn; lia|].
  apply (X21_convolution_counts_divisors 12). cbn. lia.
Defined.

(** ** Further properties of [compute_partial_sums] *)

Lemma running_shift (l : list Z) :
  forall s : Z, running s l = map (Z.add s) (running 0 l).
Proof.
  induction l as [|x l IH]; intros s; [reflexivity|].
  cbn [running map]. rewrite (IH (s + x)), (IH (0 + x)), map_map.
  f_equal; try lia. apply map_ext. intros a. lia.
Qed.

Lemma running_app (l1 l2 : list Z) :
  forall s : Z,
    running s (l1 ++ l2) = running s l1 ++ running (s + sum_of l1) l2.
Proof.
  induction l1 as [|x l1 IH]; intros s; cbn [app running sum_of fold_right].
  - now rewrite Z.add_0_r.
  - rewrite IH. fold (sum_of l1). do 3 f_equal. lia.
Qed.

(** X22.  On lists of integers, the partial sums of a concatenation are the
    partial sums of the first list, followed by those of the second list
    shifted by the total of the first.  (Float addition rounds, so this is a
    property of integer input only.) *)
Theorem X22_partial_sums_app (l1 l2 : list Z) :
  compute_partial_sums (l1 ++ l2)
  = compute_partial_sums l1 ++ map (Z.add (sum_of l1)) (compute_partial_sums l2).
Proof.
  rewrite !compute_partial_sums_running, running_app.
  f_equal. rewrite Z.add_0_l. apply running_shift.
Qed.

Lemma differences_running (l : list Z) :
  forall s : Z, differences s (running s l) = l.
Proof.
  induction l as [|x l IH]; intros s; [reflexivity|].
  cbn [running differences]. rewrite IH. f_equal. lia.
Qed.

Lemma running_differences (l : list Z) :
  forall s : Z, running s (differences s l) = l.
Proof.
  induction l as [|x l IH]; intros s; [reflexivity|].
  cbn [running differences].
  replace (s + (x - s)) with x by lia. now rewrite IH.
Qed.

(** X23.  Round trip on lists of integers: taking adjacent differences of
    the partial sums gives the sequence back, and the partial sums of the
    adjacent differences of a list give that list back.  (It needs
    [(s + x) - s = x], which float addition does not give.) *)
Theorem X23_partial_sums_differences (seq : list Z) :
  differences 0 (compute_partial_sums seq) = seq /\
  compute_partial_sums (differences 0 seq) = seq.
Proof.
  rewrite !compute_partial_sums_running. split.
  - apply differences_running.
  - apply running_differences.
Qed.

Lemma running_ascending (l : list Z) :
  Forall (fun x => 0 <= x) l ->
  forall s : Z,
    StronglySorted Z.le (running s l) /\ Forall (fun y => s <= y) (running s l).
Proof.
  induction 1 as [|x l Hx Hl IH]; intros s; cbn [running].
  - split; constructor.
  - destruct (IH (s + x)) as [Hs Hge].
    assert (Hge' : Forall (fun y => s <= y) (running (s + x) l)).
    { eapply Forall_impl; [|exact Hge]. cbn. intros; lia. }
    split.
    + constructor; [assumption|]. exact Hge.
    + constructor; [lia | assumption].
Qed.

(** X24.  The partial sums of a sequence of non-negative numbers are
    non-negative and ascend. *)
Theorem X24_partial_sums_ascending (seq : list Z) :
  Forall (fun x => 0 <= x) seq ->
  StronglySorted Z.le (compute_partial_sums seq) /\
  Forall (fun y => 0 <= y) (compute_partial_sums seq).
Proof.
  intros H. rewrite compute_partial_sums_running. now apply running_ascending.
Qed.

Lemma X24_partial_sums_ascending_witness :
  Forall (fun x => 0 <= x) [3; 0; 4] /\
  StronglySorted Z.le (compute_partial_sums [3; 0; 4]) /\
  Forall (fun y => 0 <= y) (compute_partial_sums [3; 0; 4]).
Proof.
  assert (H : Forall (fun x => 0 <= x) [3; 0; 4]) by (repeat constructor; lia).
  split; [exact H|].
  apply (X24_partial_sums_ascending [3; 0; 4]). exact H.
Defined.

(** ** [primes]: the sieve *)

Lemma lor_one (x : Z) : 0 <= x -> Z.lor x 1 = x + 1 - x mod 2.
Proof.
  intros Hx. destruct x as [|p|p]; [reflexivity| |lia].
  destruct p as [p|p|]; [| |reflexivity].
  - assert (E : Z.pos p~1 mod 2 = 1).
    { rewrite Pos2Z.inj_xI. Z.div_mod_to_equations. lia. }
    rewrite E. cbn [Z.lor Pos.lor]. lia.
  - assert (E : Z.pos p~0 mod 2 = 0).
    { rewrite Pos2Z.inj_xO. Z.div_mod_to_equations. lia. }
    rewrite E. cbn [Z.lor Pos.lor]. rewrite Pos2Z.inj_xI, Pos2Z.inj_xO. lia.
Qed.

Lemma land_one (x : Z) : 0 <= x -> Z.land x 1 = x mod 2.
Proof.
  intros Hx. change 1 with (Z.ones 1) at 1. rewrite Z.land_ones by lia.
  reflexivity.
Qed.

Lemma sieve_number_eq (j : Z) :
  0 <= j -> sieve_number j = 3 * j + 1 + j mod 2.
Proof.
  intros Hj. unfold sieve_number. rewrite lor_one by lia.
  Z.div_mod_to_equations. lia.
Qed.

Lemma sieve_number_inv (n : Z) :
  0 <= n -> n mod 6 = 1 \/ n mod 6 = 5 -> sieve_number (n / 3) = n.
Proof.
  intros Hn Hr. rewrite sieve_number_eq by (apply Z.div_pos; lia).
  Z.div_mod_to_equations. lia.
Qed.

Lemma sieve_number_facts (j : Z) :
  0 <= j ->
  sieve_number j / 3 = j /\
  (sieve_number j mod 6 = 1 \/ sieve_number j mod 6 = 5) /\
  1 <= sieve_number j /\ (1 <= j -> 5 <= sieve_number j).
Proof.
  intros Hj. rewrite sieve_number_eq by assumption.
  Z.div_mod_to_equations. lia.
Qed.

Lemma sieve_number_mono (i j : Z) :
  0 <= i -> i < j -> sieve_number i < sieve_number j.
Proof.
  intros Hi Hij. rewrite !sieve_number_eq by lia.
  Z.div_mod_to_equations. lia.
Qed.

Lemma sieve_length_spec (limit j : Z) :
  0 <= j -> (j < sieve_length limit <-> sieve_number j < limit).
Proof.
  intros Hj. rewrite sieve_number_eq by assumption. unfold sieve_length.
  destruct (Z.eqb_spec (limit mod 6) 2) as [E | E]; cbn [Z.b2z];
    Z.div_mod_to_equations; lia.
Qed.

Lemma in_range2 (lo hi k : Z) : In k (range2 lo hi) <-> lo <= k < hi.
Proof.
  unfold range2. rewrite in_map_iff. split.
  - intros (i & <- & Hi). apply in_seq in Hi. lia.
  - intros Hk. exists (Z.to_nat (k - lo)). split; [lia|]. apply in_seq. lia.
Qed.

Lemma nth_range (n : Z) (j : nat) :
  (j < Z.to_nat n)%nat -> nth j (range n) 0 = Z.of_nat j.
Proof.
  intros Hj. unfold range, range2. rewrite Z.sub_0_r.
  change 0 with ((fun k => 0 + Z.of_nat k) O) at 2.
  rewrite map_nth, seq_nth by assumption. lia.
Qed.

Lemma length_indexed (sieve : list bool) :
  length (indexed sieve) = length sieve.
Proof.
  unfold indexed. rewrite length_combine, length_range. lia.
Qed.

Lemma nth_indexed (sieve : list bool) (j : nat) :
  (j < length sieve)%nat ->
  nth j (indexed sieve) (0, false) = (Z.of_nat j, nth j sieve false).
Proof.
  intros Hj. unfold indexed.
  rewrite combine_nth by (rewrite length_range; lia).
  rewrite nth_range by lia. reflexivity.
Qed.

Lemma length_slice_clear (start step : Z) (sieve : list bool) :
  length (slice_clear start step sieve) = length sieve.
Proof.
  unfold slice_clear. now rewrite length_map, length_indexed.
Qed.

Lemma get_slice_clear (start step : Z) (sieve : list bool) (j : Z) :
  0 <= j < Z.of_nat (length sieve) ->
  sieve_get (slice_clear start step sieve) j
  = if (start <=? j) && ((j - start) mod step =? 0) then false
    else sieve_get sieve j.
Proof.
  intros Hj. unfold sieve_get, slice_clear.
  set (f := fun jb : Z * bool =>
              if (start <=? fst jb) && ((fst jb - start) mod step =? 0)
              then false else snd jb).
  rewrite (nth_indep _ false (f (0, false)))
    by (rewrite length_map, length_indexed; lia).
  rewrite map_nth, nth_indexed by lia.
  subst f. cbn [fst snd]. rewrite Z2Nat.id by lia. reflexivity.
Qed.

Lemma getitem_in_range (sieve : list bool) (i : Z) :
  0 <= i < Z.of_nat (length sieve) -> getitem sieve i = Ok (sieve_get sieve i).
Proof.
  intros Hi. unfold getitem, sieve_get.
  destruct (Z.ltb_spec i 0); [lia|].
  destruct (Z.ltb_spec i 0); [lia|].
  destruct (Z.leb_spec (Z.of_nat (length sieve)) i); [lia|]. cbn [orb].
  destruct (nth_error sieve (Z.to_nat i)) eqn:E.
  - now rewrite (nth_error_nth _ _ _ E).
  - apply nth_error_None in E. lia.
Qed.

(** ** [primes]: which positions a pass clears *)

Lemma square_mod_6 (k : Z) :
  k mod 6 = 1 \/ k mod 6 = 5 -> exists q : Z, k * k = 6 * q + 1.
Proof.
  intros [E | E].
  - exists (6 * (k / 6) * (k / 6) + 2 * (k / 6)).
    rewrite (Z.div_mod k 6) at 1 2 by lia. rewrite E. ring.
  - exists (6 * (k / 6) * (k / 6) + 10 * (k / 6) + 4).
    rewrite (Z.div_mod k 6) at 1 2 by lia. rewrite E. ring.
Qed.

Lemma mod_step_zero (j start step : Z) :
  0 < step -> start <= j -> (j - start) mod step = 0 ->
  exists t : Z, 0 <= t /\ j = start + step * t.
Proof.
  intros Hs Hj Hm. exists ((j - start) / step). split.
  - apply Z.div_pos; lia.
  - pose proof (Z.div_mod (j - start) step ltac:(lia)). lia.
Qed.

Section Pass.

Variables i k : Z.
Hypothesis Hi : 1 <= i.
Hypothesis Hk : k = sieve_number i.

Lemma pass_cleared_product (j : Z) :
  0 <= j ->
  (k * k / 3 <= j /\ (j - k * k / 3) mod (2 * k) = 0) \/
  (k * (k - 2 * (i mod 2) + 4) / 3 <= j /\
   (j - k * (k - 2 * (i mod 2) + 4) / 3) mod (2 * k) = 0) ->
  exists m : Z, k <= m /\ sieve_number j = k * m.
Proof.
  intros Hj Hc.
  destruct (sieve_number_facts i ltac:(lia)) as (_ & Hr & _ & H5).
  rewrite <- Hk in Hr, H5. specialize (H5 Hi).
  destruct (square_mod_6 k Hr) as (q & Hq).
  assert (Hpar : (i mod 2 = 0 /\ k mod 6 = 1) \/ (i mod 2 = 1 /\ k mod 6 = 5)).
  { rewrite Hk, sieve_number_eq by lia. Z.div_mod_to_equations. lia. }
  destruct Hc as [[Hle Hm] | [Hle Hm]].
  - assert (Hstep : 0 < 2 * k) by lia.
    destruct (mod_step_zero _ _ _ Hstep Hle Hm) as (t & Ht & Ej).
    exists (k + 6 * t). split; [lia|].
    assert (Hkt : 0 <= k * t) by (apply Z.mul_nonneg_nonneg; lia).
    assert (EN : k * (k + 6 * t) = 6 * (q + k * t) + 1) 
      by (replace (k * (k + 6 * t)) with (k * k + 6 * (k * t)) by ring; rewrite Hq; ring).
    assert (Es : k * k / 3 = 2 * q) by (rewrite Hq; Z.div_mod_to_equations; lia).
    assert (Ej' : j = (k * (k + 6 * t)) / 3).
    { rewrite EN. rewrite Es in Ej.
      replace (2 * k * t) with (2 * (k * t)) in Ej by ring.
      Z.div_mod_to_equations. lia. }
    rewrite Ej'. apply sieve_number_inv.
    + rewrite EN. lia.
    + left. rewrite EN. Z.div_mod_to_equations. lia.
  - assert (Hstep : 0 < 2 * k) by lia.
    destruct (mod_step_zero _ _ _ Hstep Hle Hm) as (t & Ht & Ej).
    exists (k - 2 * (i mod 2) + 4 + 6 * t). split; [lia|].
    assert (Hkt : 0 <= k * t) by (apply Z.mul_nonneg_nonneg; lia).
    assert (EK : exists q', k * (k - 2 * (i mod 2) + 4) = 6 * q' + 5 /\ 0 <= q').
    { destruct Hpar as [[Ei Ek] | [Ei Ek]]; rewrite Ei.
      - exists (q + 4 * (k / 6)). split.
        + replace (k * (k - 2 * 0 + 4)) with (k * k + 4 * k) by ring.
          rewrite Hq. Z.div_mod_to_equations. lia.
        + assert (0 <= k * k) by (apply Z.mul_nonneg_nonneg; lia).
          Z.div_mod_to_equations. lia.
      - exists (q + 2 * (k / 6) + 1). split.
        + replace (k * (k - 2 * 1 + 4)) with (k * k + 2 * k) by ring.
          rewrite Hq. Z.div_mod_to_equations. lia.
        + assert (0 <= k * k) by (apply Z.mul_nonneg_nonneg; lia).
          Z.div_mod_to_equations. lia. }
    destruct EK as (q' & EK & Hq').
    assert (EN : k * (k - 2 * (i mod 2) + 4 + 6 * t) = 6 * (q' + k * t) + 5).
    { replace (k * (k - 2 * (i mod 2) + 4 + 6 * t))
        with (k * (k - 2 * (i mod 2) + 4) + 6 * (k * t)) by ring.
      rewrite EK. ring. }
    assert (Es : k * (k - 2 * (i mod 2) + 4) / 3 = 2 * q' + 1)
      by (rewrite EK; Z.div_mod_to_equations; lia).
    assert (Ej' : j = (k * (k - 2 * (i mod 2) + 4 + 6 * t)) / 3).
    { rewrite EN. rewrite Es in Ej.
      replace (2 * k * t) with (2 * (k * t)) in Ej by ring.
      Z.div_mod_to_equations. lia. }
    rewrite Ej'. apply sieve_number_inv.
    + rewrite EN. lia.
    + right. rewrite EN. Z.div_mod_to_equations. lia.
Qed.

Lemma pass_clears_product (j m : Z) :
  0 <= j -> k <= m -> m mod 6 = 1 \/ m mod 6 = 5 ->
  sieve_number j = k * m ->
  (k * k / 3 <= j /\ (j - k * k / 3) mod (2 * k) = 0) \/
  (k * (k - 2 * (i mod 2) + 4) / 3 <= j /\
   (j - k * (k - 2 * (i mod 2) + 4) / 3) mod (2 * k) = 0).
Proof.
  intros Hj Hm Hr EN.
  destruct (sieve_number_facts i ltac:(lia)) as (_ & Hrk & _ & H5).
  rewrite <- Hk in Hrk, H5. specialize (H5 Hi).
  destruct (square_mod_6 k Hrk) as (q & Hq).
  assert (Hpar : (i mod 2 = 0 /\ k mod 6 = 1) \/ (i mod 2 = 1 /\ k mod 6 = 5)).
  { rewrite Hk, sieve_number_eq by lia. Z.div_mod_to_equations. lia. }
  destruct (sieve_number_facts j Hj) as (Ej & _).
  rewrite EN in Ej.
  destruct (Z.eq_dec (m mod 6) (k mod 6)) as [Esame | Ediff].
  - left.
    assert (Et : exists t, 0 <= t /\ m = k + 6 * t).
    { exists ((m - k) / 6). Z.div_mod_to_equations. lia. }
    destruct Et as (t & Ht & ->).
    assert (Hkt : 0 <= k * t) by (apply Z.mul_nonneg_nonneg; lia).
    assert (Es : k * k / 3 = 2 * q) by (rewrite Hq; Z.div_mod_to_equations; lia).
    assert (Ej' : j = 2 * q + (2 * k) * t).
    { rewrite <- Ej.
      replace (k * (k + 6 * t)) with (6 * (q + k * t) + 1)
        by (replace (k * (k + 6 * t)) with (k * k + 6 * (k * t)) by ring;
            rewrite Hq; ring).
      replace (2 * k * t) with (2 * (k * t)) by ring.
      Z.div_mod_to_equations. lia. }
    rewrite Es. split.
    + rewrite Ej'. replace (2 * k * t) with (2 * (k * t)) by ring. lia.
    + replace (j - 2 * q) with (t * (2 * k)) by (rewrite Ej'; ring).
      apply Z.mod_mul. lia.
  - right.
    set (kk := k - 2 * (i mod 2) + 4).
    assert (EK : exists q', k * kk = 6 * q' + 5).
    { subst kk. destruct Hpar as [[Ei Ek] | [Ei Ek]]; rewrite Ei.
      - exists (q + 4 * (k / 6)).
        replace (k * (k - 2 * 0 + 4)) with (k * k + 4 * k) by ring.
        rewrite Hq. Z.div_mod_to_equations. lia.
      - exists (q + 2 * (k / 6) + 1).
        replace (k * (k - 2 * 1 + 4)) with (k * k + 2 * k) by ring.
        rewrite Hq. Z.div_mod_to_equations. lia. }
    destruct EK as (q' & EK).
    assert (Et : exists t, 0 <= t /\ m = kk + 6 * t).
    { exists ((m - kk) / 6). subst kk. Z.div_mod_to_equations. lia. }
    destruct Et as (t & Ht & ->).
    assert (Hkt : 0 <= k * t) by (apply Z.mul_nonneg_nonneg; lia).
    assert (Es : k * kk / 3 = 2 * q' + 1) by (rewrite EK; Z.div_mod_to_equations; lia).
    assert (Ej' : j = 2 * q' + 1 + (2 * k) * t).
    { rewrite <- Ej.
      replace (k * (kk + 6 * t)) with (6 * (q' + k * t) + 5)
        by (replace (k * (kk + 6 * t)) with (k * kk + 6 * (k * t)) by ring;
            rewrite EK; ring).
      replace (2 * k * t) with (2 * (k * t)) by ring.
      Z.div_mod_to_equations. lia. }
    rewrite Es. split.
    + rewrite Ej'. replace (2 * k * t) with (2 * (k * t)) by ring. lia.
    + replace (j - (2 * q' + 1)) with (t * (2 * k)) by (rewrite Ej'; ring).
      apply Z.mod_mul. lia.
Qed.

End Pass.

(** ** [primes]: the loop *)

Lemma product_not_prime (k m : Z) : 1 < k -> 1 < m -> ~ Z.prime (k * m).
Proof.
  intros Hk Hm [_ Hp]. apply (Hp k); [nia | exists m; ring].
Qed.

Lemma sieve_loop_spec (indices : list Z) :
  forall sieve : list bool,
    Forall (fun i => 1 <= i < Z.of_nat (length sieve)) indices ->
    sieve_sound sieve ->
    exists sieve' : list bool,
      sieve_loop indices sieve = Ok sieve' /\
      length sieve' = length sieve /\
      sieve_sound sieve' /\
      (forall j : Z, 0 <= j < Z.of_nat (length sieve) ->
                     sieve_get sieve j = false -> sieve_get sieve' j = false) /\
      Forall (fun i => Z.prime (sieve_number i) -> sieve_cleared sieve' i) indices.
Proof.
  induction indices as [|i indices IH]; intros sieve Hbounds Hsound.
  - exists sieve. cbn [sieve_loop]. repeat split; auto.
  - apply Forall_cons_iff in Hbounds. destruct Hbounds as [Hi Hbounds].
    cbn [sieve_loop]. rewrite getitem_in_range by lia. cbn [bind].
    destruct (sieve_get sieve i) eqn:Ei.
    + rewrite land_one by lia.
      fold (sieve_number i).
      set (k := sieve_number i).
      set (s1 := k * k / 3).
      set (s2 := k * (k - 2 * (i mod 2) + 4) / 3).
      set (sieve1 := slice_clear s2 (2 * k) (slice_clear s1 (2 * k) sieve)).
      assert (Hlen1 : length sieve1 = length sieve).
      { subst sieve1. now rewrite !length_slice_clear. }
      assert (Hget1 : forall j : Z,
                 0 <= j < Z.of_nat (length sieve) ->
                 sieve_get sieve1 j
                 = if (s2 <=? j) && ((j - s2) mod (2 * k) =? 0) then false
                   else if (s1 <=? j) && ((j - s1) mod (2 * k) =? 0) then false
                        else sieve_get sieve j).
      { intros j Hj. subst sieve1.
        rewrite get_slice_clear by (rewrite length_slice_clear; lia).
        rewrite get_slice_clear by lia. reflexivity. }
      assert (Hk5 : 5 <= k).
      { subst k. apply (sieve_number_facts i); lia. }
      assert (Hsound1 : sieve_sound sieve1).
      { intros j Hj Hf. rewrite Hlen1 in Hj. rewrite Hget1 in Hf by assumption.
        destruct ((s2 <=? j) && ((j - s2) mod (2 * k) =? 0)) eqn:E2.
        - apply andb_true_iff in E2. destruct E2 as [E2a E2b].
          apply Z.leb_le in E2a. apply Z.eqb_eq in E2b.
          destruct (pass_cleared_product i k ltac:(lia) eq_refl j ltac:(lia))
            as (m & Hm & Em).
          { right. split; assumption. }
          exists k, m. repeat split; (lia || assumption).
        - destruct ((s1 <=? j) && ((j - s1) mod (2 * k) =? 0)) eqn:E1.
          + apply andb_true_iff in E1. destruct E1 as [E1a E1b].
            apply Z.leb_le in E1a. apply Z.eqb_eq in E1b.
            destruct (pass_cleared_product i k ltac:(lia) eq_refl j ltac:(lia))
              as (m & Hm & Em).
            { left. split; assumption. }
            exists k, m. repeat split; (lia || assumption).
          + now apply Hsound. }
      destruct (IH sieve1) as (sieve' & Hloop & Hlen' & Hsound' & Hmono & Hcleared).
      { rewrite Hlen1. assumption. }
      { assumption. }
      exists sieve'. split; [exact Hloop|].
      split; [congruence|]. split; [assumption|]. split.
      * intros j Hj Hf. apply Hmono; [rewrite Hlen1; assumption|].
        rewrite Hget1 by assumption. rewrite Hf.
        destruct ((s2 <=? j) && ((j - s2) mod (2 * k) =? 0));
          destruct ((s1 <=? j) && ((j - s1) mod (2 * k) =? 0)); reflexivity.
      * constructor; [|assumption].
        intros _ j m Hj Hm Hr EN. rewrite Hlen', Hlen1 in Hj.
        apply Hmono; [rewrite Hlen1; assumption|].
        rewrite Hget1 by assumption.
        destruct (pass_clears_product i k ltac:(lia) eq_refl j m ltac:(lia) Hm Hr EN)
          as [[Ha Hb] | [Ha Hb]].
        -- fold s1 in Ha, Hb.
           apply Z.leb_le in Ha. apply Z.eqb_eq in Hb. rewrite Ha, Hb. cbn [andb].
           destruct ((s2 <=? j) && ((j - s2) mod (2 * k) =? 0)); reflexivity.
        -- fold s2 in Ha, Hb.
           apply Z.leb_le in Ha. apply Z.eqb_eq in Hb. rewrite Ha, Hb. reflexivity.
    + destruct (IH sieve Hbounds Hsound)
        as (sieve' & Hloop & Hlen' & Hsound' & Hmono & Hcleared).
      exists sieve'. split; [exact Hloop|].
      split; [assumption|]. split; [assumption|]. split; [assumption|].
      constructor; [|assumption].
      intros Hp. exfalso.
      destruct (Hsound i ltac:(lia) Ei) as (k & m & Hk & Hm & E).
      rewrite E in Hp. now apply (product_not_prime k m).
Qed.

(** ** [primes]: reading the sieve *)

Lemma map_fst_combine {A B : Type} (l1 : list A) :
  forall l2 : list B, length l1 = length l2 -> map fst (combine l1 l2) = l1.
Proof.
  induction l1 as [|a l1 IH]; intros [|b l2] Hlen; try discriminate; [reflexivity|].
  cbn. f_equal. apply IH. now injection Hlen.
Qed.

Lemma sorted_range (n : Z) : StronglySorted Z.lt (range n).
Proof.
  unfold range, range2. generalize (Z.to_nat (n - 0)) as len. generalize 0%nat as lo.
  intros lo len. revert lo.
  induction len as [|len IH]; intros lo; cbn [seq map]; constructor.
  - apply IH.
  - apply Forall_forall. intros x Hx. apply in_map_iff in Hx.
    destruct Hx as (y & <- & Hy). apply in_seq in Hy. lia.
Qed.

Lemma sorted_filter_fst (l : list (Z * bool)) :
  StronglySorted Z.lt (map fst l) ->
  StronglySorted Z.lt (map fst (filter snd l)).
Proof.
  induction l as [|[j b] l IH]; intros Hs; [constructor|].
  cbn [map fst] in Hs. apply StronglySorted_inv in Hs. destruct Hs as [Hs Hj].
  cbn [filter snd]. destruct b; [|now apply IH].
  cbn [map fst]. constructor; [now apply IH|].
  rewrite Forall_forall in *. intros x Hx. apply Hj.
  apply in_map_iff in Hx. destruct Hx as ([x' b'] & <- & Hx).
  apply filter_In in Hx. apply in_map_iff. exists (x', b'). tauto.
Qed.

Lemma sorted_nonzero (sieve : list bool) : StronglySorted Z.lt (nonzero sieve).
Proof.
  unfold nonzero. apply sorted_filter_fst. unfold indexed.
  rewrite map_fst_combine by (rewrite length_range; lia).
  apply sorted_range.
Qed.

Lemma in_nonzero (sieve : list bool) (j : Z) :
  In j (nonzero sieve) <->
  0 <= j < Z.of_nat (length sieve) /\ sieve_get sieve j = true.
Proof.
  unfold nonzero. rewrite in_map_iff. split.
  - intros ([j' b] & Ej & Hin). cbn [fst] in Ej. subst j'.
    apply filter_In in Hin. destruct Hin as [Hin Hb]. cbn [snd] in Hb. subst b.
    apply (In_nth _ _ (0, false)) in Hin. destruct Hin as (n & Hn & En).
    rewrite length_indexed in Hn. rewrite nth_indexed in En by assumption.
    injection En as Ej Eb. subst j. split; [lia|].
    unfold sieve_get. now rewrite Nat2Z.id.
  - intros [Hj Hb]. exists (j, true). split; [reflexivity|].
    apply filter_In. split; [|reflexivity].
    assert (E : (j, true) = nth (Z.to_nat j) (indexed sieve) (0, false)).
    { rewrite nth_indexed by lia. unfold sieve_get in Hb. rewrite Hb.
      f_equal. lia. }
    rewrite E. apply nth_In. rewrite length_indexed. lia.
Qed.

Lemma sorted_map_mono (f : Z -> Z) (l : list Z) :
  StronglySorted Z.lt l ->
  (forall x y : Z, In x l -> In y l -> x < y -> f x < f y) ->
  StronglySorted Z.lt (map f l).
Proof.
  induction 1 as [|x l Hl IH Hx]; intros Hmono; [constructor|].
  cbn [map]. constructor.
  - apply IH. intros y z Hy Hz. apply Hmono; now right.
  - rewrite Forall_forall in *. intros y Hy. apply in_map_iff in Hy.
    destruct Hy as (z & <- & Hz). apply Hmono; [now left | now right | now apply Hx].
Qed.

Lemma sieve_sound_ones (n : nat) : sieve_sound (repeat true n).
Proof.
  intros j Hj Hf. exfalso. unfold sieve_get in Hf.
  assert (Hin : In (nth (Z.to_nat j) (repeat true n) false) (repeat true n))
    by (apply nth_In; lia).
  apply repeat_spec in Hin. congruence.
Qed.

Lemma prime_to_6 (n d : Z) :
  n mod 6 = 1 \/ n mod 6 = 5 -> 0 < d -> (d | n) -> d mod 6 = 1 \/ d mod 6 = 5.
Proof.
  intros Hn Hd [c Hc].
  assert (H2 : d mod 2 <> 0).
  { intros E. apply Z.mod_divide in E; [|lia]. destruct E as [e ->].
    assert (n = 2 * (c * e)) by (rewrite Hc; ring).
    Z.div_mod_to_equations. lia. }
  assert (H3 : d mod 3 <> 0).
  { intros E. apply Z.mod_divide in E; [|lia]. destruct E as [e ->].
    assert (n = 3 * (c * e)) by (rewrite Hc; ring).
    Z.div_mod_to_equations. lia. }
  Z.div_mod_to_equations. lia.
Qed.

(** After the loop a position from 1 on is set exactly when its number is
    prime. *)
Lemma sieve_final (limit : Z) (sieve : list bool) :
  0 <= limit ->
  Z.of_nat (length sieve) = sieve_length limit ->
  sieve_sound sieve ->
  Forall (fun i => Z.prime (sieve_number i) -> sieve_cleared sieve i)
         (range2 1 (Z.sqrt limit / 3 + 1)) ->
  forall j : Z,
    1 <= j < sieve_length limit ->
    (sieve_get sieve j = true <-> Z.prime (sieve_number j)).
Proof.
  intros Hlimit Hlen Hsound Hcleared j Hj.
  destruct (sieve_number_facts j ltac:(lia)) as (Ediv & Hr & _ & H5).
  specialize (H5 ltac:(lia)).
  assert (Hlt : sieve_number j < limit) by (apply sieve_length_spec; lia).
  set (n := sieve_number j) in *.
  split.
  - intros Hget.
    destruct (least_divisor_exists n ltac:(lia)) as (p & Hp).
    pose proof (least_divisor_prime n p Hp) as Hprime.
    destruct Hp as (Hp1 & Hpd & Hmin).
    destruct (Z.eq_dec p n) as [-> | Hne]; [assumption|].
    exfalso.
    assert (Hple : p <= n) by (apply Z.divide_pos_le; [lia | assumption]).
    pose proof (prime_to_6 n p Hr ltac:(lia) Hpd) as Hrp.
    destruct Hpd as [m Em].
    assert (Hm1 : 1 < m) by nia.
    assert (Hmd : (m | n)) by (exists p; rewrite Em; ring).
    pose proof (prime_to_6 n m Hr ltac:(lia) Hmd) as Hrm.
    assert (Hpm : p <= m).
    { destruct (Z_lt_le_dec m p) as [Hlt' | Hle]; [|assumption].
      exfalso. apply (Hmin m); [lia | assumption]. }
    assert (Ep : sieve_number (p / 3) = p) by (apply sieve_number_inv; [lia | assumption]).
    assert (Hsq : p <= Z.sqrt limit).
    { apply Z.sqrt_le_square; [lia | lia | nia]. }
    assert (Hi : 1 <= p / 3 < Z.sqrt limit / 3 + 1).
    { pose proof (Z.div_le_mono p (Z.sqrt limit) 3 ltac:(lia) Hsq).
      assert (5 <= p) by (Z.div_mod_to_equations; lia).
      Z.div_mod_to_equations. lia. }
    rewrite Forall_forall in Hcleared.
    specialize (Hcleared (p / 3) (proj2 (in_range2 _ _ _) Hi)).
    rewrite Ep in Hcleared. specialize (Hcleared Hprime).
    rewrite (Hcleared j m) in Hget; [discriminate | lia | rewrite Ep; assumption
                                     | assumption | rewrite Ep].
    fold n. rewrite Em. ring.
  - intros Hprime. destruct (sieve_get sieve j) eqn:E; [reflexivity|].
    exfalso. destruct (Hsound j ltac:(lia) E) as (k & m & Hk & Hm & EN).
    fold n in EN. rewrite EN in Hprime. now apply (product_not_prime k m).
Qed.

Lemma sqrt_index_bound (limit i : Z) :
  0 <= limit -> 1 <= i < Z.sqrt limit / 3 + 1 -> i < sieve_length limit.
Proof.
  intros Hlimit Hi.
  pose proof (Z.sqrt_spec limit Hlimit) as [Hs _].
  pose proof (Z.sqrt_nonneg limit) as Hs0.
  set (s := Z.sqrt limit) in *.
  assert (Hs3 : 3 <= s) by (Z.div_mod_to_equations; lia).
  assert (H3s : 3 * s <= limit) by nia.
  unfold sieve_length.
  assert (0 <= Z.b2z (limit mod 6 =? 2)) by (destruct (limit mod 6 =? 2); cbn; lia).
  Z.div_mod_to_equations. lia.
Qed.

Lemma primes_spec (limit : Z) :
  4 <= limit ->
  exists l : list Z,
    primes limit = Ok l /\
    StronglySorted Z.lt l /\
    forall p : Z, In p l <-> Z.prime p /\ p < limit.
Proof.
  intros Hlimit.
  assert (HL : 1 <= sieve_length limit).
  { unfold sieve_length.
    assert (0 <= Z.b2z (limit mod 6 =? 2)) by (destruct (limit mod 6 =? 2); cbn; lia).
    Z.div_mod_to_equations. lia. }
  unfold primes. fold (sieve_length limit). unfold ones.
  destruct (Z.ltb_spec (sieve_length limit) 0); [lia|]. cbn [bind].
  set (sieve0 := repeat true (Z.to_nat (sieve_length limit))).
  assert (Hlen0 : Z.of_nat (length sieve0) = sieve_length limit).
  { subst sieve0. rewrite repeat_length. lia. }
  destruct (sieve_loop_spec (range2 1 (Z.sqrt limit / 3 + 1)) sieve0)
    as (sieve & Hloop & Hlen & Hsound & _ & Hcleared).
  { apply Forall_forall. intros i Hi. apply in_range2 in Hi.
    rewrite Hlen0. split; [lia|]. apply sqrt_index_bound; lia. }
  { apply sieve_sound_ones. }
  rewrite Hloop. cbn [bind].
  assert (Hlen' : Z.of_nat (length sieve) = sieve_length limit) by congruence.
  pose proof (sieve_final limit sieve ltac:(lia) Hlen' Hsound Hcleared) as Hfinal.
  pose proof (sorted_nonzero sieve) as Hsorted.
  pose proof (in_nonzero sieve) as Hin.
  assert (H0 : In 0 (nonzero sieve)).
  { apply Hin. split; [lia|].
    destruct (sieve_get sieve 0) eqn:E; [reflexivity|]. exfalso.
    destruct (Hsound 0 ltac:(lia) E) as (k & m & Hk & Hm & EN).
    change (sieve_number 0) with 1 in EN. nia. }
  destruct (nonzero sieve) as [|x nz]; [destruct H0|].
  apply StronglySorted_inv in Hsorted. destruct Hsorted as [Hsorted Hx].
  rewrite Forall_forall in Hx.
  assert (Ex : x = 0).
  { destruct H0 as [E | H0]; [assumption|].
    apply Hx in H0. assert (In x (x :: nz)) by now left.
    apply Hin in H1. lia. }
  subst x. cbn [tl].
  assert (Hnz : forall j : Z, In j nz <-> 1 <= j < sieve_length limit /\ Z.prime (sieve_number j)).
  { intros j. split.
    - intros Hj. pose proof (Hx j Hj) as Hpos.
      assert (Hj' : In j (0 :: nz)) by now right.
      apply Hin in Hj'. destruct Hj' as [Hr Hg].
      split; [lia|]. apply Hfinal; [lia | assumption].
    - intros [Hj Hp]. apply Hfinal in Hp; [|assumption].
      assert (Hj' : In j (0 :: nz)) by (apply Hin; split; [lia | assumption]).
      destruct Hj' as [E | Hj']; [lia | assumption]. }
  eexists. split; [reflexivity|]. split.
  - constructor; [constructor|].
    + apply (sorted_map_mono sieve_number); [assumption|].
      intros a b Ha Hb Hab. apply sieve_number_mono; [|assumption].
      apply Hnz in Ha. lia.
    + apply Forall_forall. intros y Hy. apply in_map_iff in Hy.
      destruct Hy as (j & <- & Hj). apply Hnz in Hj.
      pose proof (sieve_number_facts j ltac:(lia)) as (_ & _ & _ & H5).
      fold (sieve_number j). lia.
    + constructor; [lia|].
      apply Forall_forall. intros y Hy. apply in_map_iff in Hy.
      destruct Hy as (j & <- & Hj). apply Hnz in Hj.
      pose proof (sieve_number_facts j ltac:(lia)) as (_ & _ & _ & H5).
      fold (sieve_number j). lia.
  - intros p. cbn [In]. rewrite in_map_iff. split.
    + intros [<- | [<- | (j & <- & Hj)]].
      * split; [apply Z.prime_2 | lia].
      * split; [apply Z.prime_3 | lia].
      * apply Hnz in Hj. destruct Hj as [Hj Hp]. split; [assumption|].
        apply sieve_length_spec; lia.
    + intros [Hp Hlt].
      pose proof (Z.prime_ge_2 p Hp) as Hp2.
      destruct (Z.eq_dec p 2) as [-> | H2]; [now left|].
      destruct (Z.eq_dec p 3) as [-> | H3]; [right; now left|].
      right. right.
      assert (Hr : p mod 6 = 1 \/ p mod 6 = 5).
      { destruct Hp as [_ Hp].
        assert (N2 : p mod 2 <> 0).
        { intros E. apply (Hp 2); [lia|]. apply Z.mod_divide; [lia | assumption]. }
        assert (N3 : p mod 3 <> 0).
        { intros E. apply (Hp 3); [lia|]. apply Z.mod_divide; [lia | assumption]. }
        Z.div_mod_to_equations. lia. }
      exists (p / 3).
      assert (Ep : sieve_number (p / 3) = p) by (apply sieve_number_inv; [lia | assumption]).
      split; [exact Ep|]. apply Hnz. rewrite Ep.
      assert (1 <= p / 3).
      { assert (5 <= p) by (Z.div_mod_to_equations; lia).
        Z.div_mod_to_equations. lia. }
      split; [|assumption]. split; [assumption|].
      apply sieve_length_spec; [lia|]. rewrite Ep. assumption.
Qed.

Lemma primes_negative (limit : Z) : limit < 0 -> primes limit = Raise ValueError.
Proof.
  intros Hlimit. unfold primes, ones.
  assert (H : limit / 3 + Z.b2z (limit mod 6 =? 2) < 0).
  { destruct (Z.eqb_spec (limit mod 6) 2); cbn [Z.b2z];
      Z.div_mod_to_equations; lia. }
  apply Z.ltb_lt in H. rewrite H. reflexivity.
Qed.

(** X25.  For a limit from 4 up (and below [2 ^ 52], where the float square
    root is the integer square root), [primes(limit)] returns exactly the
    primes below [limit], in ascending order. *)
Theorem X25_primes_lists_primes_below (limit : Z) :
  4 <= limit < 2 ^ 52 ->
  exists l : list Z,
    primes limit = Ok l /\
    StronglySorted Z.lt l /\
    forall p : Z, In p l <-> Z.prime p /\ p < limit.
Proof. intros [Hlimit _]. now apply primes_spec. Qed.

Lemma X25_primes_witness :
  4 <= 1000 < 2 ^ 52 /\
  exists l : list Z,
    primes 1000 = Ok l /\
    StronglySorted Z.lt l /\
    forall p : Z, In p l <-> Z.prime p /\ p < 1000.
Proof.
  split; [lia|]. apply (X25_primes_lists_primes_below 1000). lia.
Defined.

(** X26.  A negative limit raises [ValueError]: the length of the sieve
    array would be negative. *)
Theorem X26_primes_negative_raises (limit : Z) :
  limit < 0 -> primes limit = Raise ValueError.
Proof. apply primes_negative. Qed.

Lemma X26_primes_negative_witness : -1 < 0 /\ primes (-1) = Raise ValueError.
Proof.
  split; [lia|]. apply (X26_primes_negative_raises (-1)). lia.
Defined.

Lemma spd_of_prime (p : Z) :
  Z.prime p -> smallest_prime_divisor p None = Ok p.
Proof.
  intros Hp. pose proof (Z.prime_ge_2 p Hp) as Hp2.
  destruct (spd_unbounded p Hp2) as (q & Hq & Hld).
  rewrite Hq. f_equal.
  destruct Hld as (Hq1 & Hqd & _). destruct Hp as [_ Hnone].
  destruct (Z.eq_dec q p) as [|Hne]; [assumption|]. exfalso.
  apply (Hnone q); [|assumption].
  assert (q <= p) by (apply Z.divide_pos_le; [lia | assumption]). lia.
Qed.

(** X27.  The sieve and the factoring routines agree: for a limit from 4 up
    (below [2 ^ 52]) [primes(limit)] returns a list, and every entry [p] of
    it is its own smallest prime divisor, factors as [[(p, 1)]] and has the
    divisor list [[1, p]]. *)
Theorem X27_primes_entries_factor_trivially (limit : Z) :
  4 <= limit < 2 ^ 52 ->
  exists l : list Z,
    primes limit = Ok l /\
    forall p : Z,
      In p l ->
      smallest_prime_divisor p None = Ok p /\
      factor p = Ok [(p, 1)] /\
      factors p = Ok [1; p].
Proof.
  intros [Hlimit _].
  destruct (primes_spec limit Hlimit) as (l & Hl & _ & Hin).
  exists l. split; [exact Hl|]. intros p Hp.
  apply Hin in Hp. destruct Hp as [Hp _].
  split; [now apply spd_of_prime|]. split; [|now apply factors_of_prime].
  replace p with (factorization_product [(p, 1)]) at 1 by (cbn; lia).
  apply factor_of_product. split.
  - constructor; [split; [assumption | cbn; lia] | constructor].
  - cbn. repeat constructor.
Qed.

Lemma X27_primes_entries_witness :
  4 <= 30 < 2 ^ 52 /\
  exists l : list Z,
    primes 30 = Ok l /\
    forall p : Z,
      In p l ->
      smallest_prime_divisor p None = Ok p /\
      factor p = Ok [(p, 1)] /\
      factors p = Ok [1; p].
Proof.
  split; [lia|]. apply (X27_primes_entries_factor_trivially 30). lia.
Defined.

(** X28.  For [|n| > 1] the first pair of [factor(n)] carries the smallest
    prime divisor of [|n|], as [smallest_prime_divisor] returns it. *)
Theorem X28_factor_starts_with_spd (n : Z) :
  1 < Z.abs n ->
  exists (p e : Z) (rest : list (Z * Z)),
    smallest_prime_divisor (Z.abs n) None = Ok p /\
    factor n = Ok ((p, e) :: rest).
Proof.
  intros Hn. destruct (factor_spec n Hn) as (fs & Hfs & Hfact).
  pose proof (factorization_of_well_formed _ _ Hfact) as Hwf.
  destruct Hfact as (Hall & Hsorted & Hprod).
  destruct (spd_unbounded (Z.abs n) ltac:(lia)) as (p & Hp & Hld).
  pose proof (least_divisor_prime _ _ Hld) as Hprime.
  assert (Hin : In p (map fst fs)).
  { apply prime_divides_product; [assumption | assumption|].
    rewrite Hprod. apply Hld. }
  destruct fs as [|[q e] rest]; [destruct Hin|].
  exists p, e, rest. split; [assumption|]. rewrite Hfs. do 3 f_equal.
  apply Forall_inv in Hall. cbn [fst snd] in Hall. destruct Hall as (Hq & _ & Hqd).
  pose proof (least_divisor_le_prime _ _ _ Hld Hq Hqd) as Hle.
  cbn [map fst] in Hsorted, Hin. apply StronglySorted_inv in Hsorted.
  destruct Hsorted as [_ Hlt]. rewrite Forall_forall in Hlt.
  destruct Hin as [E | Hin]; [assumption|].
  apply Hlt in Hin. lia.
Qed.

Lemma X28_factor_starts_witness :
  1 < Z.abs (-7007) /\
  exists (p e : Z) (rest : list (Z * Z)),
    smallest_prime_divisor (Z.abs (-7007)) None = Ok p /\
    factor (-7007) = Ok ((p, e) :: rest).
Proof.
  split; [cbn; lia|]. apply (X28_factor_starts_with_spd (-7007)). cbn. lia.
Defined.

(** ** [gcd]: the sign of the result, and its divisors *)

(** X29.  [gcd] returns a negative value in one case only: one argument is
    zero and the other is negative, and then the negative argument is what
    it returns. *)
Theorem X29_gcd_negative_iff (a b : Z) :
  exists g : Z,
    gcd a b = Ok g /\
    (g < 0 <-> (a = 0 /\ b < 0) \/ (b = 0 /\ a < 0)) /\
    (a = 0 -> b < 0 -> g = b) /\
    (b = 0 -> a < 0 -> g = a).
Proof.
  destruct (Z.eq_dec a 0) as [-> | Ha].
  - exists b. rewrite gcd_zero_l. split; [reflexivity|]. lia.
  - destruct (Z.eq_dec b 0) as [-> | Hb].
    + exists a. rewrite gcd_zero_r. split; [reflexivity|]. lia.
    + exists (Z.gcd a b). rewrite gcd_nonzero by assumption.
      split; [reflexivity|]. pose proof (Z.gcd_nonneg a b). lia.
Qed.

(** X30.  [gcd] and [factors] together: for two non-zero numbers with a
    common divisor above 1, [gcd] returns a value [g], [factors(g)] returns
    a list, and the list holds exactly the positive common divisors of the
    two numbers. *)
Theorem X30_factors_of_gcd_common_divisors (a b : Z) :
  a <> 0 -> b <> 0 ->
  (exists c : Z, 1 < c /\ (c | a) /\ (c | b)) ->
  exists (g : Z) (ds : list Z),
    gcd a b = Ok g /\ factors g = Ok ds /\
    forall d : Z, In d ds <-> 0 < d /\ (d | a) /\ (d | b).
Proof.
  intros Ha Hb (c & Hc & Hca & Hcb).
  assert (Hg1 : 1 < Z.gcd a b).
  { pose proof (Z.gcd_nonneg a b) as Hnn.
    assert (Hne : Z.gcd a b <> 0).
    { intros E. apply Z.gcd_eq_0_l in E. contradiction. }
    assert (Hle : c <= Z.gcd a b).
    { apply Z.divide_pos_le; [lia|]. now apply Z.gcd_greatest. }
    lia. }
  destruct (factors_spec (Z.gcd a b) ltac:(lia)) as (_ & ds & _ & Hds & _ & Hin & _).
  rewrite Z.abs_eq in Hin by lia.
  exists (Z.gcd a b), ds. split; [now apply gcd_nonzero|]. split; [exact Hds|].
  intros d. rewrite Hin. split.
  - intros [Hd Hdiv]. split; [assumption|]. split.
    + apply Z.divide_trans with (Z.gcd a b); [assumption | apply Z.gcd_divide_l].
    + apply Z.divide_trans with (Z.gcd a b); [assumption | apply Z.gcd_divide_r].
  - intros (Hd & Hda & Hdb). split; [assumption|]. now apply Z.gcd_greatest.
Qed.

Lemma X30_factors_of_gcd_witness :
  -1001 <> 0 /\ 26 <> 0 /\
  (exists c : Z, 1 < c /\ (c | -1001) /\ (c | 26)) /\
  exists (g : Z) (ds : list Z),
    gcd (-1001) 26 = Ok g /\ factors g = Ok ds /\
    forall d : Z, In d ds <-> 0 < d /\ (d | -1001) /\ (d | 26).
Proof.
  assert (Hc : exists c : Z, 1 < c /\ (c | -1001) /\ (c | 26)).
  { exists 13. split; [lia|]. split; [exists (-77) | exists 2]; reflexivity. }
  split; [lia|]. split; [lia|]. split; [exact Hc|].
  apply (X30_factors_of_gcd_common_divisors (-1001) 26); [lia | lia | exact Hc].
Defined.
